(** * whisper_transcribe.py: segment splitting, timestamps and model lookup

    A shallow embedding of the two pieces of logic of
    [scripts/whisper_transcribe.py]: the nested function [split_text] with
    the loop of [main] that turns recognised segments into subtitle
    entries, and [resolve_model_path].

    Conventions of the embedding:
    - a Python [str] is the list of its code points ([N]);
    - Python integers are [Z]; slices follow Python's rules for negative
      and out-of-range bounds;
    - the [while] loop of [split_text] runs on fuel and returns [None]
      when the fuel runs out; [main] calls it with the length of the text
      as fuel, which is shown to be enough;
    - a Python [float] is an IEEE 754 binary64 value: a signed zero, a
      finite value held as the rational it denotes, an infinity or NaN;
      every operation is the exact operation followed by rounding to the
      nearest double, ties to even, with overflow to infinity;
      [round(x, 2)] rounds the exact value to the nearest hundredth, ties
      to even, and converts that decimal to the nearest double;
    - the progress percentages alone are computed on exact rationals:
      there the float expression [(i + 1) / max(total_segments, 1) * 40]
      is idealised;
    - the file system and the environment are read-only oracles. *)

From Stdlib Require Import ZArith QArith Qround Qpower Lia Lqa.
From stdpp Require Import base list strings gmap.

Local Open Scope Z_scope.

(** ** Python strings *)

Module PyStr.

Definition char := N.
Abbreviation str := (list char).

(** [len(s)], for strings and lists alike. *)
Definition len {A} (s : list A) : Z := Z.of_nat (length s).

(** [str.isspace] on one code point (the characters [str.strip] removes). *)
Definition isspace (c : char) : bool :=
  ((0x09 <=? c) && (c <=? 0x0D) || (0x1C <=? c) && (c <=? 0x20)
   || (c =? 0x85) || (c =? 0xA0) || (c =? 0x1680)
   || (0x2000 <=? c) && (c <=? 0x200A)
   || (c =? 0x2028) || (c =? 0x2029) || (c =? 0x202F)
   || (c =? 0x205F) || (c =? 0x3000))%N.

Fixpoint lstrip (s : str) : str :=
  match s with
  | [] => []
  | c :: s' => if isspace c then lstrip s' else s
  end.

Definition rstrip (s : str) : str := rev (lstrip (rev s)).

(** [s.strip()] *)
Definition strip (s : str) : str := rstrip (lstrip s).

(** A slice bound [k] of a sequence of length [n]: negative bounds count
    from the end, and everything is clamped to [0..n]. *)
Definition slice_bound (n k : Z) : nat :=
  Z.to_nat (if k <? 0 then Z.max 0 (n + k) else Z.min k n).

(** [s[:k]] *)
Definition slice_to (s : str) (k : Z) : str := take (slice_bound (len s) k) s.

(** [s[k:]] *)
Definition slice_from (s : str) (k : Z) : str := drop (slice_bound (len s) k) s.

(** [s.startswith(sub)] *)
Fixpoint startswith (s sub : str) : bool :=
  match sub, s with
  | [], _ => true
  | _ :: _, [] => false
  | b :: sub', a :: s' => (a =? b)%N && startswith s' sub'
  end.

(** Scan of [s] from offset [i], remembering in [found] the last offset
    at which [sub] starts. *)
Fixpoint rfind_from (s sub : str) (i found : Z) : Z :=
  let found' := if startswith s sub then i else found in
  match s with
  | [] => found'
  | _ :: s' => rfind_from s' sub (i + 1) found'
  end.

(** [s.rfind(sub)]: the highest index at which [sub] occurs in [s], or
    [-1]. *)
Definition rfind (s sub : str) : Z := rfind_from s sub 0 (-1).

End PyStr.

Import PyStr.

(** ** The splitter *)

Module Splitter.

(** The list [punctuations] of [split_text]: twelve one-character
    strings. *)
Definition punctuations : list str :=
  [ [0x3002]; (* ideographic full stop *)
    [0xFF01]; (* fullwidth exclamation mark *)
    [0xFF1F]; (* fullwidth question mark *)
    [0xFF0C]; (* fullwidth comma *)
    [0x3001]; (* ideographic comma *)
    [0xFF1B]; (* fullwidth semicolon *)
    [0x2E];   (* . *)
    [0x21];   (* ! *)
    [0x3F];   (* ? *)
    [0x2C];   (* , *)
    [0x3B];   (* ; *)
    [0x20]    (* space *) ]%N.

(** The [for p in punctuations] loop: [split_pos] starts at [-1] and is
    raised to every larger [text[:max_len].rfind(p)]. *)
Definition scan_punctuations (text : str) (max_len : Z) : Z :=
  foldl (fun split_pos p =>
           let pos := rfind (slice_to text max_len) p in
           if pos >? split_pos then pos else split_pos)
        (-1) punctuations.

(** The split position of one iteration, after the [split_pos <= 0]
    test. *)
Definition split_pos (text : str) (max_len : Z) : Z :=
  let split_pos := scan_punctuations text max_len in
  if split_pos <=? 0 then max_len - 1 else split_pos.

(** The chunk appended by one iteration and the text left after it. *)
Definition chunk (text : str) (max_len : Z) : str :=
  strip (slice_to text (split_pos text max_len + 1)).

Definition rest (text : str) (max_len : Z) : str :=
  strip (slice_from text (split_pos text max_len + 1)).

(** The [while len(text) > max_len] loop on the pair [(text, result)]. *)
Fixpoint split_loop (fuel : nat) (text : str) (max_len : Z)
    (result : list str) : option (str * list str) :=
  if len text >? max_len then
    match fuel with
    | O => None
    | S fuel' =>
        split_loop fuel' (rest text max_len) max_len
                   (result ++ [chunk text max_len])
    end
  else Some (text, result).

(** The runs of the loop, as a relation: [loop_run max_len text chunks
    text'] when the loop entered with [text] appends [chunks] and
    leaves with [text']. *)
Inductive loop_run (max_len : Z) : str -> list str -> str -> Prop :=
| run_exit text :
    len text <= max_len -> loop_run max_len text [] text
| run_iter text chunks text' :
    len text > max_len ->
    loop_run max_len (rest text max_len) chunks text' ->
    loop_run max_len text (chunk text max_len :: chunks) text'.

(** The final [if text: result.append(text)]. *)
Definition with_remainder (result : list str) (text : str) : list str :=
  match text with
  | [] => result
  | _ :: _ => result ++ [text]
  end.

Definition split_text (fuel : nat) (text : str) (max_len : Z)
    : option (list str) :=
  if len text <=? max_len then Some [text]
  else
    match split_loop fuel text max_len [] with
    | None => None
    | Some (text', result) => Some (with_remainder result text')
    end.

End Splitter.

Import Splitter.

(** ** Python floats *)

Module Double.

Local Open Scope Q_scope.

(** Nearest integer, ties to even. *)
Definition round_half_even (x : Q) : Z :=
  let f := Qfloor x in
  match Qcompare (x - inject_Z f) (1 # 2) with
  | Lt => f
  | Gt => (f + 1)%Z
  | Eq => if Z.even f then f else (f + 1)%Z
  end.

(** A Python [float]: an IEEE 754 binary64 value. A finite value other
    than zero is held as the rational it denotes, in lowest terms. *)
Inductive double :=
| Zero (negative : bool)
| Finite (q : Q)
| Infinity (negative : bool)
| NaN.

(** The exponent of the binade of [a > 0]: the integer [l] with
    [2 ^ l <= a < 2 ^ (l + 1)]. *)
Definition ilog2 (a : Q) : Z :=
  let l := (Z.log2 (Qnum a) - Z.log2 (Zpos (Qden a)))%Z in
  if Qle_bool (2 ^ l) a then l else (l - 1)%Z.

(** The exponent of the last place of the doubles around [a > 0]: 53
    significant bits, and [2 ^ -1074] for the subnormal numbers. *)
Definition ulp_exponent (a : Q) : Z := Z.max (ilog2 a - 52) (-1074).

(** [a > 0] rounded to the nearest multiple of its unit in the last
    place, ties to the even multiple. *)
Definition round_magnitude (a : Q) : Q :=
  inject_Z (round_half_even (a / 2 ^ ulp_exponent a)) * 2 ^ ulp_exponent a.

(** Rounding to nearest, ties to even, with no bound on the exponent. *)
Definition rounded (q : Q) : Q :=
  match Qcompare q 0 with
  | Eq => 0
  | Gt => round_magnitude q
  | Lt => - round_magnitude (- q)
  end.

(** The double nearest to [q]: overflow gives an infinity; a zero takes
    the sign of [q], or [negative_zero] when [q] is zero itself. *)
Definition of_Q (negative_zero : bool) (q : Q) : double :=
  let r := rounded q in
  if Qle_bool (2 ^ 1024) r then Infinity false
  else if Qle_bool r (- 2 ^ 1024) then Infinity true
  else if Qeq_bool r 0
       then Zero (if Qeq_bool q 0 then negative_zero else negb (Qle_bool 0 q))
       else Finite (Qred r).

Definition sign (x : double) : bool :=
  match x with
  | Zero s | Infinity s => s
  | Finite q => negb (Qle_bool 0 q)
  | NaN => false
  end.

(** The value of a finite double (and 0 for the others). *)
Definition val (x : double) : Q :=
  match x with
  | Finite q => q
  | _ => 0
  end.

Definition is_nan (x : double) : bool :=
  match x with
  | NaN => true
  | _ => false
  end.

Definition is_inf (x : double) : bool :=
  match x with
  | Infinity _ => true
  | _ => false
  end.

Definition is_zero (x : double) : bool :=
  match x with
  | Zero _ => true
  | Finite q => Qeq_bool q 0
  | _ => false
  end.

(** Neither NaN nor an infinity. *)
Definition finite (x : double) : Prop := is_nan x = false /\ is_inf x = false.

(** [-x] *)
Definition fneg (x : double) : double :=
  match x with
  | Zero s => Zero (negb s)
  | Finite q => Finite (- q)
  | Infinity s => Infinity (negb s)
  | NaN => NaN
  end.

(** [x + y]: the exact sum, rounded. A sum that is exactly zero is [+0],
    but [-0 + -0] is [-0]. *)
Definition fadd (x y : double) : double :=
  match x, y with
  | NaN, _ | _, NaN => NaN
  | Infinity a, Infinity b => if Bool.eqb a b then x else NaN
  | Infinity _, _ => x
  | _, Infinity _ => y
  | _, _ => of_Q (sign x && sign y) (val x + val y)
  end.

(** [x - y] *)
Definition fsub (x y : double) : double := fadd x (fneg y).

(** [x * y]: the exact product, rounded; infinity times zero is NaN. *)
Definition fmul (x y : double) : double :=
  if is_nan x || is_nan y then NaN
  else if is_inf x || is_inf y then
    if is_zero x || is_zero y then NaN else Infinity (xorb (sign x) (sign y))
  else of_Q (xorb (sign x) (sign y)) (val x * val y).

(** [x / y]: the exact quotient, rounded. For a zero [y] this is the
    IEEE result; Python raises [ZeroDivisionError] there, and the one
    division of [main] is guarded by [len(parts) > 0]. *)
Definition fdiv (x y : double) : double :=
  if is_nan x || is_nan y then NaN
  else if is_inf x then
    if is_inf y then NaN else Infinity (xorb (sign x) (sign y))
  else if is_inf y then Zero (xorb (sign x) (sign y))
  else if is_zero y then
    if is_zero x then NaN else Infinity (xorb (sign x) (sign y))
  else of_Q (xorb (sign x) (sign y)) (val x / val y).

(** The conversion of an [int] operand to [float]: the nearest double.
    Python raises [OverflowError] for an [int] beyond the doubles; the
    [int]s of [main] are list indices and lengths. *)
Definition of_int (z : Z) : double := of_Q false (inject_Z z).

(** The double that a decimal literal denotes. *)
Definition of_decimal (q : Q) : double := of_Q false q.

(** [round(x, 2)]: the exact value of [x] rounded to the nearest
    hundredth, ties to even, and that decimal converted back to the
    nearest double; zeros, infinities and NaN round to themselves. *)
Definition round2 (x : double) : double :=
  match x with
  | Finite q => of_Q (sign x) (inject_Z (round_half_even (q * 100)) / 100)
  | _ => x
  end.

(** The extended rational line, to compare doubles. *)
Inductive ext := NegInf | Val (q : Q) | PosInf.

Definition ext_le (a b : ext) : Prop :=
  match a, b with
  | NegInf, _ => True
  | _, PosInf => True
  | Val p, Val q => p <= q
  | _, _ => False
  end.

Definition to_ext (x : double) : option ext :=
  match x with
  | NaN => None
  | Infinity true => Some NegInf
  | Infinity false => Some PosInf
  | Zero _ => Some (Val 0)
  | Finite q => Some (Val q)
  end.

(** [x <= y]: false when either is NaN; the two zeros are equal. *)
Definition fle (x y : double) : Prop :=
  match to_ext x, to_ext y with
  | Some a, Some b => ext_le a b
  | _, _ => False
  end.

End Double.

Import Double.

(** ** The conversion loop of [main] *)

Module Driver.

(** What the recogniser yields: [segment.start], [segment.end],
    [segment.text]. *)
Record RawSegment := {
  seg_start : double;
  seg_end : double;
  seg_text : str
}.

(** One element of [subtitles["data"]]. *)
Record SubtitleEntry := {
  time : double;
  text : str
}.

Definition MAX_TEXT_LENGTH : Z := 25.

(** [duration / len(parts) if len(parts) > 0 else 0] *)
Definition time_per_part (duration : double) (parts : list str) : double :=
  if len parts >? 0 then fdiv duration (of_int (len parts)) else of_int 0.

(** The entries that one iteration of the [for i, segment] loop appends
    to [subtitles["data"]]. *)
Definition segment_entries (segment : RawSegment)
    : option (list SubtitleEntry) :=
  let text := strip (seg_text segment) in
  let start_time := round2 (seg_start segment) in
  let end_time := round2 (seg_end segment) in
  if len text >? MAX_TEXT_LENGTH then
    match split_text (length text) text MAX_TEXT_LENGTH with
    | None => None
    | Some parts =>
        let duration := fsub end_time start_time in
        let time_per_part := time_per_part duration parts in
        Some (imap (fun j part =>
                      {| time := round2 (fadd start_time
                                              (fmul (of_int (Z.of_nat j))
                                                    time_per_part));
                         text := part |})
                   parts)
    end
  else Some [ {| time := start_time; text := text |} ].

(** The whole loop: [subtitles["data"]] after all segments. *)
Fixpoint convert (data : list SubtitleEntry) (segment_list : list RawSegment)
    : option (list SubtitleEntry) :=
  match segment_list with
  | [] => Some data
  | segment :: segments =>
      match segment_entries segment with
      | None => None
      | Some entries => convert (data ++ entries) segments
      end
  end.

End Driver.

Import Driver.

(** ** The progress lines of [main] *)

Module Progress.

Local Open Scope Q_scope.

(** [int(x)] of a float: truncation towards zero. *)
Definition py_int (x : Q) : Z :=
  if Qle_bool 0 x then Qfloor x else Qceiling x.

(** [50 + int((i + 1) / max(total_segments, 1) * 40)], the value printed
    after segment [i]. *)
Definition progress (i total_segments : nat) : Z :=
  (50 + py_int (inject_Z (Z.of_nat i + 1)
                / inject_Z (Z.max (Z.of_nat total_segments) 1) * 40))%Z.

(** The values of the [[PROGRESS]] lines of a run that succeeds, in the
    order in which they are printed: before and after loading the model,
    before and after the transcription, after every segment, before and
    after writing the file. *)
Definition progress_lines (total_segments : nat) : list Z :=
  [10; 20; 30; 50]%Z
  ++ map (fun i => progress i total_segments) (seq 0 total_segments)
  ++ [90; 100]%Z.

End Progress.

Import Progress.

(** ** The model locator *)

Module Locator.

Local Open Scope string_scope.

(** What [resolve_model_path] reads of the world: [os.path.isdir],
    [os.path.exists], [os.listdir], and [os.environ.get]. *)
Record World := {
  isdir : string -> bool;
  exists_ : string -> bool;
  listdir : string -> list string;
  environ : string -> option string
}.

(** What it prints to [sys.stderr]. *)
Inductive Diagnostic :=
| InfoFoundLocal (snapshot_path : string)
| WarnNotFound (model_name : string).

(** The character [/]. *)
Definition slash : Ascii.ascii := Ascii.ascii_of_nat 47.

Definition startswith_slash (p : string) : bool :=
  match p with
  | String c _ => Ascii.eqb c slash
  | EmptyString => false
  end.

Fixpoint endswith_slash (p : string) : bool :=
  match p with
  | EmptyString => false
  | String c EmptyString => Ascii.eqb c slash
  | String _ p' => endswith_slash p'
  end.

(** [os.path.join(a, b)] of [posixpath]. *)
Definition path_join (a b : string) : string :=
  if startswith_slash b then b
  else if (String.eqb a "" || endswith_slash a)%bool then a +:+ b
  else a +:+ "/" +:+ b.

Definition model_map : gmap string string :=
  <["tiny" := "models--Systran--faster-whisper-tiny"]>
  (<["base" := "models--Systran--faster-whisper-base"]>
  (<["small" := "models--Systran--faster-whisper-small"]>
  (<["medium" := "models--Systran--faster-whisper-medium"]>
  (<["large" := "models--Systran--faster-whisper-large-v3"]>
  (<["large-v3" := "models--Systran--faster-whisper-large-v3"]> ∅))))).

(** Is [dir] a directory that holds a [model.bin]? The two nested tests
    of the source, made on the full path and on each snapshot. *)
Definition holds_model (w : World) (dir : string) : bool :=
  isdir w dir && exists_ w (path_join dir "model.bin").

(** The [for snapshot in os.listdir(snapshots_dir)] loop: the first
    snapshot path that holds a model, if any. *)
Fixpoint first_snapshot (w : World) (snapshots_dir : string)
    (snapshots : list string) : option string :=
  match snapshots with
  | [] => None
  | snapshot :: snapshots' =>
      let snapshot_path := path_join snapshots_dir snapshot in
      if holds_model w snapshot_path then Some snapshot_path
      else first_snapshot w snapshots_dir snapshots'
  end.

(** [os.environ.get('WHISPER_MODELS_DIR', '/root/.cache/huggingface')] *)
Definition models_dir (w : World) : string :=
  default "/root/.cache/huggingface" (environ w "WHISPER_MODELS_DIR").

(** [os.path.join(models_dir, model_folder, 'snapshots')] *)
Definition snapshots_dir (w : World) (model_folder : string) : string :=
  path_join (path_join (models_dir w) model_folder) "snapshots".

(** [resolve_model_path(model_name)]: the returned path and the lines
    printed. *)
Definition resolve_model_path (w : World) (model_name : string)
    : string * list Diagnostic :=
  if holds_model w model_name then (model_name, [])
  else
    match model_map !! model_name with
    | Some model_folder =>
        let snapshots_dir := snapshots_dir w model_folder in
        let found :=
          if isdir w snapshots_dir
          then first_snapshot w snapshots_dir (listdir w snapshots_dir)
          else None in
        match found with
        | Some snapshot_path =>
            (snapshot_path, [InfoFoundLocal snapshot_path])
        | None => (model_name, [WarnNotFound model_name])
        end
    | None => (model_name, [])
    end.

End Locator.

Import Locator.

(** ** Reading the claims: definitions that follow the specification *)

Module Spec.

(** [ws_deleted t c]: [c] is [t] with some whitespace characters
    deleted, everything else kept in place and in order. *)
Inductive ws_deleted : str -> str -> Prop :=
| ws_done : ws_deleted [] []
| ws_keep c t t' : ws_deleted t t' -> ws_deleted (c :: t) (c :: t')
| ws_drop c t t' : isspace c = true -> ws_deleted t t' -> ws_deleted (c :: t) t'.

(** A text that begins with a character other than whitespace. *)
Definition starts_visible (s : str) : Prop :=
  match s with
  | c :: _ => isspace c = false
  | [] => False
  end.

(** The characters of the "fixed punctuation/space set". *)
Definition boundary_chars : list char :=
  [0x3002; 0xFF01; 0xFF1F; 0xFF0C; 0x3001; 0xFF1B;
   0x2E; 0x21; 0x3F; 0x2C; 0x3B; 0x20]%N.

(** Membership of a character in a list of characters. *)
Definition one_of (cs : list char) (c : char) : bool := existsb (N.eqb c) cs.

Definition is_boundary (c : char) : bool := one_of boundary_chars c.

(** The largest index of [s] whose character satisfies [P]. *)
Fixpoint last_index_where (P : char -> bool) (s : str) : option nat :=
  match s with
  | [] => None
  | c :: s' =>
      match last_index_where P s' with
      | Some i => Some (S i)
      | None => if P c then Some O else None
      end
  end.

(** An index as Python's search functions report it: [-1] for none. *)
Definition index_or_minus_one (o : option nat) : Z :=
  match o with
  | Some i => Z.of_nat i
  | None => -1
  end.

(** "the largest index within the first [max_len] characters at which
    any character of the set occurs" *)
Definition rightmost_boundary (text : str) (max_len : nat) : option nat :=
  last_index_where is_boundary (take max_len text).

(** "the known short names (tiny, base, small, medium, large,
    large-v3)" *)
Definition short_names : list string :=
  ["tiny"; "base"; "small"; "medium"; "large"; "large-v3"]%string.

(** "no snapshot directory under modelsRoot contains the weights file",
    for the cache folder [model_folder] of a short name. *)
Definition no_local_snapshot (w : World) (model_folder : string) : Prop :=
  isdir w (snapshots_dir w model_folder) = true ->
  forall snapshot,
    In snapshot (listdir w (snapshots_dir w model_folder)) ->
    holds_model w (path_join (snapshots_dir w model_folder) snapshot) = false.

(** "start + j * (end - start) / n rounded to 2 decimal places", with
    the operations of Python in the order in which Python reads them. *)
Definition claimed_time (start end_ : double) (n j : nat) : double :=
  round2 (fadd start
               (fdiv (fmul (of_int (Z.of_nat j)) (fsub end_ start))
                     (of_int (Z.of_nat n)))).

(** [s + j * ((e - s) / n)] rounded to 2 decimal places: the division
    first, then the product, then the sum, each one rounded. *)
Definition part_time (s e : double) (n j : nat) : double :=
  round2 (fadd s
               (fmul (of_int (Z.of_nat j))
                     (fdiv (fsub e s) (of_int (Z.of_nat n))))).


End Spec.

Import Spec.

(** Code points of an ASCII literal, to write example inputs. *)
Definition of_string (s : string) : str :=
  map (fun a => N.of_nat (Ascii.nat_of_ascii a)) (String.list_ascii_of_string s).

(** ** Example inputs *)

Module Examples.

Local Open Scope string_scope.

(** A segment whose text is three spaces. *)
Definition blank_segment : RawSegment :=
  {| seg_start := of_decimal 1; seg_end := of_decimal 2;
     seg_text := of_string "   " |}.

(** Sixty-two characters that split into three chunks at the commas. *)
Definition three_clauses : str :=
  of_string "aaaaaaaaaaaaaaaaaaaa,bbbbbbbbbbbbbbbbbbbb,cccccccccccccccccccc".

(** From 0.004 s to 0.014 s. *)
Definition short_segment : RawSegment :=
  {| seg_start := of_decimal (4 # 1000); seg_end := of_decimal (14 # 1000);
     seg_text := three_clauses |}.

(** From 0 s to 10 s. *)
Definition ten_seconds : RawSegment :=
  {| seg_start := of_decimal 0; seg_end := of_decimal 10;
     seg_text := three_clauses |}.


Definition sentence : str :=
  of_string "hello, world. this is a long text without stop, yes".

(** A machine with no directories at all and no environment. *)
Definition empty_world : World :=
  {| isdir := fun _ => false;
     exists_ := fun _ => false;
     listdir := fun _ => [];
     environ := fun _ => None |}.

(** A machine whose cache holds one snapshot of the base model, without
    its weights. *)
Definition stale_world : World :=
  {| isdir := fun p =>
       (String.eqb p "/root/.cache/huggingface/models--Systran--faster-whisper-base/snapshots"
        || String.eqb p "/root/.cache/huggingface/models--Systran--faster-whisper-base/snapshots/abc")%bool;
     exists_ := fun _ => false;
     listdir := fun p =>
       if String.eqb p "/root/.cache/huggingface/models--Systran--faster-whisper-base/snapshots"
       then ["abc"] else [];
     environ := fun _ => None |}.

(** The same cache with the weights in place. *)
Definition cached_world : World :=
  {| isdir := isdir stale_world;
     exists_ := fun p =>
       String.eqb p "/root/.cache/huggingface/models--Systran--faster-whisper-base/snapshots/abc/model.bin";
     listdir := listdir stale_world;
     environ := fun _ => None |}.

End Examples.

Import Examples.

(** ** Further properties and inputs *)

Module Properties.

Local Open Scope string_scope.

(** A text that [strip] leaves as it is. *)
Definition trimmed (s : str) : Prop := strip s = s.

(** A text with no punctuation mark of the list and no whitespace. *)
Definition unbroken (s : str) : Prop :=
  Forall (fun c => is_boundary c = false /\ isspace c = false) s.

(** A list of integers that never decreases. *)
Definition nondecreasing (l : list Z) : Prop :=
  forall i j x y,
    (i <= j)%nat -> l !! i = Some x -> l !! j = Some y -> x <= y.

(** Twenty-six letters. *)
Definition alphabet : str := of_string "abcdefghijklmnopqrstuvwxyz".

End Properties.

Import Properties.

(** Closes a closed side condition by evaluation. *)
Ltac by_evaluation :=
  vm_compute; first [reflexivity | discriminate | lia | apply le_n].

(** ** Strings: lengths, slices, [strip] *)

Section PyStrFacts.

Implicit Types (s t : str) (k : Z).

Lemma len_nonneg {A} (l : list A) : 0 <= len l.
Proof. unfold len. lia. Qed.

Lemma len_app {A} (l1 l2 : list A) : len (l1 ++ l2) = len l1 + len l2.
Proof. unfold len. rewrite length_app. lia. Qed.

Lemma lstrip_length s : (length (lstrip s) <= length s)%nat.
Proof.
  induction s as [|c s IH]; simpl; [lia|].
  destruct (isspace c); simpl; lia.
Qed.

Lemma strip_length s : (length (strip s) <= length s)%nat.
Proof.
  unfold strip, rstrip. rewrite length_rev.
  etransitivity; [apply lstrip_length|].
  rewrite length_rev. apply lstrip_length.
Qed.

Lemma len_strip s : len (strip s) <= len s.
Proof. unfold len. pose proof (strip_length s). lia. Qed.

Lemma slice_bound_le n k : 0 <= n -> (Z.of_nat (slice_bound n k) <= n).
Proof. unfold slice_bound. intros Hn. destruct (k <? 0) eqn:E; lia. Qed.

Lemma slice_bound_nonneg n k :
  0 <= k -> 0 <= n -> Z.of_nat (slice_bound n k) = Z.min k n.
Proof.
  unfold slice_bound. intros Hk Hn.
  destruct (k <? 0) eqn:E; [apply Z.ltb_lt in E; lia | lia].
Qed.

Lemma slice_split s k : slice_to s k ++ slice_from s k = s.
Proof. unfold slice_to, slice_from. apply take_drop. Qed.

Lemma len_slice_to s k : 0 <= k -> len (slice_to s k) = Z.min k (len s).
Proof.
  intros Hk. unfold slice_to. unfold len at 1. rewrite length_take.
  pose proof (slice_bound_nonneg (len s) k Hk (len_nonneg s)).
  unfold len in *. lia.
Qed.

Lemma len_slice_from s k :
  0 <= k -> len (slice_from s k) = len s - Z.min k (len s).
Proof.
  intros Hk. unfold slice_from. unfold len at 1. rewrite length_drop.
  pose proof (slice_bound_nonneg (len s) k Hk (len_nonneg s)).
  unfold len in *. lia.
Qed.

Lemma slice_to_take s k : 0 <= k -> slice_to s k = take (Z.to_nat k) s.
Proof.
  intros Hk. unfold slice_to.
  pose proof (slice_bound_nonneg (len s) k Hk (len_nonneg s)) as Hb.
  destruct (Z.le_gt_cases k (len s)) as [Hle|Hgt].
  - f_equal. lia.
  - unfold len in *. rewrite !take_ge by lia. reflexivity.
Qed.

End PyStrFacts.

(** ** [rfind] of a one-character string *)

Section RfindFacts.

Implicit Types (s w : str) (c : char) (P Q : char -> bool).

Lemma last_index_where_ext P Q s :
  (forall c, P c = Q c) -> last_index_where P s = last_index_where Q s.
Proof.
  intros HPQ. induction s as [|a s IH]; simpl; [reflexivity|].
  rewrite IH, HPQ. reflexivity.
Qed.

Lemma last_index_where_never s :
  last_index_where (fun _ => false) s = None.
Proof. induction s as [|a s IH]; simpl; [|rewrite IH]; reflexivity. Qed.

Lemma last_index_where_lt P s i :
  last_index_where P s = Some i -> (i < length s)%nat.
Proof.
  revert i. induction s as [|a s IH]; simpl; intros i H; [discriminate|].
  destruct (last_index_where P s) as [j|].
  - injection H as <-. specialize (IH j eq_refl). lia.
  - destruct (P a); [injection H as <-; lia | discriminate].
Qed.

(** The index found is an occurrence, and the last one. *)
Lemma last_index_where_Some P s i :
  last_index_where P s = Some i <->
  (exists c, s !! i = Some c /\ P c = true) /\
  (forall j c, (i < j)%nat -> s !! j = Some c -> P c = false).
Proof.
  revert i. induction s as [|a s IH]; intros i; simpl.
  - split; [discriminate|]. intros [[c [Hc _]] _]. discriminate.
  - destruct (last_index_where P s) as [k|] eqn:E.
    + specialize (IH k). destruct IH as [IH _].
      destruct (IH eq_refl) as [[c [Hc HP]] Hlast].
      split.
      * intros H. injection H as <-. split; [exists c; auto|].
        intros [|j] d Hj Hd; [lia|]. simpl in Hd.
        apply (Hlast j d); [lia | exact Hd].
      * intros [[d [Hd HPd]] Hlast']. f_equal.
        destruct (lt_eq_lt_dec i (S k)) as [[Hlt|Heq]|Hgt]; [|exact (eq_sym Heq)|].
        -- specialize (Hlast' (S k) c Hlt Hc). congruence.
        -- destruct i as [|i]; [lia|]. simpl in Hd.
           specialize (Hlast i d ltac:(lia) Hd). congruence.
    + assert (Hnone : forall j c, s !! j = Some c -> P c = false).
      { intros j c Hj. destruct (P c) eqn:HP; [|reflexivity].
        assert (Hex : exists i', last_index_where P s = Some i').
        { clear IH E. revert j Hj. induction s as [|b s IHs]; intros j Hj;
            [discriminate|]. simpl.
          destruct (last_index_where P s) as [k|] eqn:E'; [eauto|].
          destruct j as [|j]; simpl in Hj.
          - injection Hj as ->. rewrite HP. eauto.
          - destruct (IHs j Hj) as [i' Hi']. discriminate. }
        destruct Hex as [i' Hi']. congruence. }
      destruct (P a) eqn:HPa; split.
      * intros H. injection H as <-. split; [exists a; auto|].
        intros [|j] d Hj Hd; [lia|]. simpl in Hd. eapply Hnone; eauto.
      * intros [[d [Hd HPd]] _]. f_equal.
        destruct i as [|i]; [reflexivity|]. simpl in Hd.
        specialize (Hnone i d Hd). congruence.
      * discriminate.
      * intros [[d [Hd HPd]] _]. destruct i as [|i]; simpl in Hd.
        -- injection Hd as ->. congruence.
        -- specialize (Hnone i d Hd). congruence.
Qed.

Lemma last_index_where_None P s :
  last_index_where P s = None <->
  (forall j c, s !! j = Some c -> P c = false).
Proof.
  split.
  - intros HN j c Hj. destruct (P c) eqn:HP; [|reflexivity].
    exfalso. revert j Hj HN.
    induction s as [|b s IHs]; intros j Hj HN; [discriminate|].
    simpl in HN. destruct (last_index_where P s) as [k|] eqn:E; [discriminate|].
    destruct j as [|j]; simpl in Hj.
    + injection Hj as ->. rewrite HP in HN. discriminate.
    + eapply IHs; eauto.
  - intros H. destruct (last_index_where P s) as [i|] eqn:E; [|reflexivity].
    apply last_index_where_Some in E. destruct E as [[c [Hc HP]] _].
    specialize (H i c Hc). congruence.
Qed.

(** Searching for either of two kinds of character finds the later of
    the two last occurrences. *)
Lemma last_index_where_or P Q s :
  index_or_minus_one (last_index_where (fun c => P c || Q c) s) =
  Z.max (index_or_minus_one (last_index_where P s))
        (index_or_minus_one (last_index_where Q s)).
Proof.
  induction s as [|a s IH]; simpl; [reflexivity|].
  destruct (last_index_where (fun c => P c || Q c) s) as [i|],
           (last_index_where P s) as [j|],
           (last_index_where Q s) as [k|];
    simpl in *; try lia;
    destruct (P a), (Q a); simpl; lia.
Qed.

Lemma startswith_one s c :
  startswith s [c] = match s with a :: _ => (a =? c)%N | [] => false end.
Proof.
  destruct s as [|a s]; simpl; [reflexivity|].
  destruct s; apply andb_true_r.
Qed.

Lemma rfind_from_one s c i found :
  rfind_from s [c] i found =
  match last_index_where (fun a => (a =? c)%N) s with
  | Some j => i + Z.of_nat j
  | None => found
  end.
Proof.
  revert i found. induction s as [|a s IH]; intros i found.
  - reflexivity.
  - cbn [rfind_from]. rewrite IH, startswith_one. simpl.
    destruct (last_index_where (fun a0 => (a0 =? c)%N) s) as [j|]; [lia|].
    destruct (a =? c)%N; [lia | reflexivity].
Qed.

(** [s.rfind(c)] for a one-character [c] is the last index of that
    character, or [-1]. *)
Lemma rfind_one s c :
  rfind s [c] = index_or_minus_one (last_index_where (fun a => (a =? c)%N) s).
Proof.
  unfold rfind. rewrite rfind_from_one.
  destruct (last_index_where _ s); simpl; lia.
Qed.

End RfindFacts.

(** ** One iteration of the splitting loop *)

Section IterationFacts.

Implicit Types (text : str) (max_len : Z).

Lemma punctuations_chars : punctuations = map (fun c => [c]) boundary_chars.
Proof. reflexivity. Qed.

Lemma scan_fold w cs P :
  foldl (fun split_pos p =>
           let pos := rfind w p in
           if pos >? split_pos then pos else split_pos)
        (index_or_minus_one (last_index_where P w))
        (map (fun c => [c]) cs)
  = index_or_minus_one (last_index_where (fun a => P a || one_of cs a) w).
Proof.
  revert P. induction cs as [|c cs IH]; intros P; simpl.
  - f_equal. apply last_index_where_ext. intros a.
    symmetry. apply orb_false_r.
  - rewrite rfind_one.
    replace (if _ >? _ then _ else _)
      with (index_or_minus_one
              (last_index_where (fun a => P a || (a =? c)%N) w)).
    + rewrite IH. f_equal. apply last_index_where_ext. intros a.
      symmetry. apply orb_assoc.
    + rewrite last_index_where_or.
      destruct (Z.gtb_spec
                  (index_or_minus_one (last_index_where (fun a => (a =? c)%N) w))
                  (index_or_minus_one (last_index_where P w))); lia.
Qed.

(** The [for] loop over all punctuation marks finds the last boundary
    character of the window. *)
Lemma scan_punctuations_rightmost text max_len :
  scan_punctuations text max_len =
  index_or_minus_one (last_index_where is_boundary (slice_to text max_len)).
Proof.
  unfold scan_punctuations. rewrite punctuations_chars.
  pose proof (scan_fold (slice_to text max_len) boundary_chars (fun _ => false))
    as Hfold.
  rewrite last_index_where_never in Hfold.
  change (index_or_minus_one None) with (-1) in Hfold.
  etransitivity; [exact Hfold | reflexivity].
Qed.

Lemma scan_punctuations_bounds text max_len :
  0 <= max_len -> -1 <= scan_punctuations text max_len < max_len.
Proof.
  intros Hm. rewrite scan_punctuations_rightmost.
  destruct (last_index_where is_boundary (slice_to text max_len)) as [i|] eqn:E;
    simpl; [|lia].
  apply last_index_where_lt in E.
  pose proof (len_slice_to text max_len Hm) as Hl. unfold len in Hl. lia.
Qed.

Lemma split_pos_bounds text max_len :
  1 <= max_len -> 0 <= split_pos text max_len < max_len.
Proof.
  intros Hm. unfold split_pos.
  pose proof (scan_punctuations_bounds text max_len ltac:(lia)).
  destruct (Z.leb_spec (scan_punctuations text max_len) 0); lia.
Qed.

Lemma len_chunk text max_len :
  1 <= max_len -> len (chunk text max_len) <= max_len.
Proof.
  intros Hm. unfold chunk.
  pose proof (split_pos_bounds text max_len Hm).
  pose proof (len_strip (slice_to text (split_pos text max_len + 1))).
  pose proof (len_slice_to text (split_pos text max_len + 1) ltac:(lia)).
  lia.
Qed.

(** Every iteration consumes at least one character. *)
Lemma len_rest text max_len :
  1 <= max_len -> len text > max_len ->
  len (rest text max_len) < len text.
Proof.
  intros Hm Hlen. unfold rest.
  pose proof (split_pos_bounds text max_len Hm).
  pose proof (len_strip (slice_from text (split_pos text max_len + 1))).
  pose proof (len_slice_from text (split_pos text max_len + 1) ltac:(lia)).
  lia.
Qed.

End IterationFacts.

(** ** The loop: fuel, runs, and what a run preserves *)

Section LoopFacts.

Implicit Types (text : str) (max_len : Z) (chunks result : list str).

Lemma split_loop_run fuel : forall text max_len result text' result',
  split_loop fuel text max_len result = Some (text', result') ->
  exists chunks, result' = result ++ chunks /\ loop_run max_len text chunks text'.
Proof.
  induction fuel as [|fuel IH]; intros text max_len result text' result' H;
    simpl in H; destruct (Z.gtb_spec (len text) max_len) as [Hgt|Hle];
    try discriminate.
  - injection H as <- <-. exists []. rewrite app_nil_r.
    split; [reflexivity | constructor; lia].
  - apply IH in H. destruct H as [chunks [-> Hrun]].
    exists (chunk text max_len :: chunks). split.
    + rewrite <- app_assoc. reflexivity.
    + constructor; [lia | exact Hrun].
  - injection H as <- <-. exists []. rewrite app_nil_r.
    split; [reflexivity | constructor; lia].
Qed.

Lemma loop_run_split_loop max_len text chunks text' :
  loop_run max_len text chunks text' ->
  forall fuel result, (length chunks <= fuel)%nat ->
    split_loop fuel text max_len result = Some (text', result ++ chunks).
Proof.
  induction 1 as [text Hle | text chunks text' Hgt Hrun IH];
    intros fuel result Hfuel.
  - rewrite app_nil_r.
    destruct fuel; simpl; destruct (Z.gtb_spec (len text) max_len);
      first [lia | reflexivity].
  - destruct fuel as [|fuel]; simpl in Hfuel; [lia|]. simpl.
    destruct (Z.gtb_spec (len text) max_len); [|lia].
    rewrite IH by lia. rewrite <- app_assoc. reflexivity.
Qed.

(** For [max_len >= 1] the loop has a run from every text, of at most
    as many iterations as the text has characters. *)
Lemma loop_run_exists max_len :
  1 <= max_len ->
  forall n text, (length text <= n)%nat ->
    exists chunks text',
      loop_run max_len text chunks text' /\ (length chunks <= length text)%nat.
Proof.
  intros Hm. induction n as [|n IH]; intros text Hn.
  - exists [], text. split; [|simpl; lia].
    constructor. unfold len. lia.
  - destruct (Z.le_gt_cases (len text) max_len) as [Hle|Hgt].
    + exists [], text. split; [constructor; exact Hle | simpl; lia].
    + pose proof (len_rest text max_len Hm ltac:(lia)) as Hrest.
      unfold len in Hrest.
      destruct (IH (rest text max_len) ltac:(lia)) as [chunks [text' [Hrun Hlen]]].
      exists (chunk text max_len :: chunks), text'. split.
      * constructor; [lia | exact Hrun].
      * simpl. lia.
Qed.

Lemma loop_run_exit_len max_len text chunks text' :
  loop_run max_len text chunks text' -> len text' <= max_len.
Proof. induction 1; assumption. Qed.

Lemma loop_run_chunk_len max_len text chunks text' :
  1 <= max_len -> loop_run max_len text chunks text' ->
  Forall (fun c => len c <= max_len) chunks.
Proof.
  intros Hm. induction 1; constructor; [apply len_chunk; exact Hm | assumption].
Qed.

Lemma loop_run_entered max_len text chunks text' :
  loop_run max_len text chunks text' -> len text > max_len -> chunks <> [].
Proof. induction 1; [lia | discriminate]. Qed.

(** The chunks of a sentence of 51 characters cut at 10. *)
Example split_text_sentence :
  split_text 51 sentence 10 =
  Some (map of_string
          ["hello,"; "world."; "this is a"; "long text"; "without";
           "stop, yes"]%string).
Proof. vm_compute. reflexivity. Qed.

(** The bound [max_len >= 1] matters: with [max_len = 0] no iteration
    consumes a character of a text without whitespace, and the loop never
    leaves. *)
Example split_loop_zero_max_len fuel result :
  split_loop fuel (of_string "ab") 0 result = None.
Proof.
  revert result. induction fuel as [|fuel IH]; intros result; [reflexivity|].
  change (split_loop (S fuel) (of_string "ab") 0 result)
    with (split_loop fuel (rest (of_string "ab") 0) 0
            (result ++ [chunk (of_string "ab") 0])).
  replace (rest (of_string "ab") 0) with (of_string "ab") by reflexivity.
  apply IH.
Qed.

End LoopFacts.

(** ** Deleting whitespace *)

Section WhitespaceFacts.

Implicit Types (s t u : str).

Lemma ws_deleted_refl s : ws_deleted s s.
Proof. induction s; constructor; assumption. Qed.

Lemma ws_deleted_trans s t u :
  ws_deleted s t -> ws_deleted t u -> ws_deleted s u.
Proof.
  intros Hst. revert u. induction Hst as [|c s t Hst IH|c s t Hc Hst IH];
    intros u Htu.
  - exact Htu.
  - inversion Htu; subst.
    + apply ws_keep. apply IH. assumption.
    + apply ws_drop; [assumption|]. apply IH. assumption.
  - apply ws_drop; [assumption|]. apply IH. assumption.
Qed.

Lemma ws_deleted_app s s' t t' :
  ws_deleted s s' -> ws_deleted t t' -> ws_deleted (s ++ t) (s' ++ t').
Proof.
  intros Hs Ht. induction Hs; simpl;
    [assumption | apply ws_keep | apply ws_drop]; assumption.
Qed.

Lemma ws_deleted_rev s s' : ws_deleted s s' -> ws_deleted (rev s) (rev s').
Proof.
  induction 1 as [|c s s' Hs IH|c s s' Hc Hs IH]; simpl.
  - constructor.
  - apply ws_deleted_app; [exact IH | apply ws_deleted_refl].
  - rewrite <- (app_nil_r (rev s')).
    apply ws_deleted_app; [exact IH|]. apply ws_drop; [exact Hc | constructor].
Qed.

Lemma ws_deleted_lstrip s : ws_deleted s (lstrip s).
Proof.
  induction s as [|c s IH]; simpl; [constructor|].
  destruct (isspace c) eqn:Hc.
  - apply ws_drop; assumption.
  - apply ws_deleted_refl.
Qed.

Lemma ws_deleted_strip s : ws_deleted s (strip s).
Proof.
  unfold strip, rstrip.
  apply ws_deleted_trans with (lstrip s); [apply ws_deleted_lstrip|].
  rewrite <- (rev_involutive (lstrip s)) at 1.
  apply ws_deleted_rev, ws_deleted_lstrip.
Qed.

(** Deleting whitespace keeps the other characters, in order. *)
Lemma ws_deleted_visible s s' :
  ws_deleted s s' ->
  List.filter (fun c => negb (isspace c)) s'
  = List.filter (fun c => negb (isspace c)) s.
Proof.
  induction 1 as [|c s s' Hs IH|c s s' Hc Hs IH]; simpl.
  - reflexivity.
  - rewrite IH. reflexivity.
  - rewrite Hc. simpl. exact IH.
Qed.

Lemma loop_run_ws_deleted max_len text chunks text' :
  loop_run max_len text chunks text' ->
  ws_deleted text (concat chunks ++ text').
Proof.
  induction 1 as [text Hle | text chunks text' Hgt Hrun IH]; simpl.
  - apply ws_deleted_refl.
  - rewrite <- (slice_split text (split_pos text max_len + 1)) at 1.
    rewrite <- app_assoc. apply ws_deleted_app.
    + apply ws_deleted_strip.
    + eapply ws_deleted_trans; [apply ws_deleted_strip | exact IH].
Qed.

Lemma lstrip_starts s : lstrip s = [] \/ starts_visible (lstrip s).
Proof.
  induction s as [|c s IH]; simpl; [left; reflexivity|].
  destruct (isspace c) eqn:Hc; [exact IH | right; exact Hc].
Qed.

Lemma lstrip_snoc_visible s c :
  isspace c = false -> exists s', lstrip (s ++ [c]) = s' ++ [c].
Proof.
  intros Hc. induction s as [|a s IH]; simpl.
  - rewrite Hc. exists []. reflexivity.
  - destruct (isspace a); [exact IH|]. exists (a :: s). reflexivity.
Qed.

Lemma rstrip_visible c s :
  isspace c = false -> exists s', rstrip (c :: s) = c :: s'.
Proof.
  intros Hc. unfold rstrip. simpl.
  destruct (lstrip_snoc_visible (rev s) c Hc) as [s' ->].
  exists (rev s'). rewrite rev_app_distr. reflexivity.
Qed.

(** What [strip] returns is empty or begins with a visible character. *)
Lemma strip_starts s : strip s = [] \/ starts_visible (strip s).
Proof.
  unfold strip. destruct (lstrip_starts s) as [-> | Hvis]; [left; reflexivity|].
  destruct (lstrip s) as [|c s0]; [contradiction|]. simpl in Hvis.
  destruct (rstrip_visible c s0 Hvis) as [s' ->]. right. exact Hvis.
Qed.

Lemma strip_visible_nonempty s : starts_visible s -> strip s <> [].
Proof.
  destruct s as [|c s]; [contradiction|]. simpl. intros Hc.
  unfold strip. simpl. rewrite Hc.
  destruct (rstrip_visible c s Hc) as [s' ->]. discriminate.
Qed.

End WhitespaceFacts.

(** ** [split_text] as a whole *)

Section SplitTextFacts.

Implicit Types (text : str) (max_len : Z) (parts : list str).

Lemma split_text_short fuel text max_len :
  len text <= max_len -> split_text fuel text max_len = Some [text].
Proof.
  intros H. unfold split_text.
  destruct (Z.leb_spec (len text) max_len); [reflexivity | lia].
Qed.

Lemma split_text_long fuel text max_len parts :
  len text > max_len ->
  split_text fuel text max_len = Some parts ->
  exists chunks text',
    loop_run max_len text chunks text' /\ parts = with_remainder chunks text'.
Proof.
  intros Hgt H. unfold split_text in H.
  destruct (Z.leb_spec (len text) max_len); [lia|].
  destruct (split_loop fuel text max_len []) as [[text' result]|] eqn:E;
    [|discriminate].
  apply split_loop_run in E. destruct E as [chunks [-> Hrun]].
  exists chunks, text'. split; [exact Hrun|].
  injection H as <-. reflexivity.
Qed.

Lemma split_text_of_run fuel text max_len chunks text' :
  len text > max_len ->
  loop_run max_len text chunks text' -> (length chunks <= fuel)%nat ->
  split_text fuel text max_len = Some (with_remainder chunks text').
Proof.
  intros Hgt Hrun Hfuel. unfold split_text.
  destruct (Z.leb_spec (len text) max_len); [lia|].
  rewrite (loop_run_split_loop _ _ _ _ Hrun fuel [] Hfuel). reflexivity.
Qed.

(** With [max_len >= 1], fuel equal to the length of the text is
    enough, and more fuel changes nothing. *)
Lemma split_text_total fuel text max_len :
  1 <= max_len -> (length text <= fuel)%nat ->
  exists parts,
    split_text fuel text max_len = Some parts /\
    split_text (length text) text max_len = Some parts.
Proof.
  intros Hm Hfuel.
  destruct (Z.le_gt_cases (len text) max_len) as [Hle|Hgt].
  - exists [text]. split; apply split_text_short; exact Hle.
  - destruct (loop_run_exists max_len Hm (length text) text (le_n _))
      as [chunks [text' [Hrun Hlen]]].
    exists (with_remainder chunks text').
    split; apply split_text_of_run; first [lia | assumption].
Qed.

Lemma with_remainder_concat chunks text' :
  concat (with_remainder chunks text') = concat chunks ++ text'.
Proof.
  destruct text'; simpl.
  - rewrite app_nil_r. reflexivity.
  - rewrite concat_app. simpl. rewrite app_nil_r. reflexivity.
Qed.

Lemma chunk_nonempty text max_len :
  1 <= max_len -> starts_visible text -> chunk text max_len <> [].
Proof.
  intros Hm Hvis. unfold chunk. apply strip_visible_nonempty.
  pose proof (split_pos_bounds text max_len Hm) as Hpos.
  rewrite slice_to_take by lia.
  destruct (Z.to_nat (split_pos text max_len + 1)) as [|n] eqn:E; [lia|].
  destruct text; [contradiction | exact Hvis].
Qed.

Lemma rest_starts text max_len :
  1 <= max_len -> len (rest text max_len) > max_len ->
  starts_visible (rest text max_len).
Proof.
  intros Hm Hlen. unfold rest in *.
  destruct (strip_starts (slice_from text (split_pos text max_len + 1)))
    as [Hnil | Hvis]; [|exact Hvis].
  rewrite Hnil in Hlen. unfold len in Hlen. simpl in Hlen. lia.
Qed.

(** From a trimmed text the loop appends no empty chunk. *)
Lemma loop_run_chunks_nonempty max_len text chunks text' :
  1 <= max_len -> loop_run max_len text chunks text' ->
  starts_visible text -> Forall (fun part => part <> []) chunks.
Proof.
  intros Hm. induction 1 as [text Hle | text chunks text' Hgt Hrun IH];
    intros Hvis; constructor.
  - apply chunk_nonempty; assumption.
  - inversion Hrun as [t Hle Ht Hc | t cs t' Hgt' Hrun' Ht Hc]; subst.
    + constructor.
    + apply IH. apply rest_starts; [exact Hm | lia].
Qed.

Lemma with_remainder_nonempty chunks text' :
  Forall (fun part => part <> []) chunks ->
  Forall (fun part => part <> []) (with_remainder chunks text').
Proof.
  intros H. destruct text' as [|c text']; simpl; [exact H|].
  apply Forall_app. split; [exact H|]. constructor; [discriminate | constructor].
Qed.

End SplitTextFacts.

(** ** Doubles: powers of two and binades *)

Section Pow2.
Local Open Scope Q_scope.

Lemma pow2_pos (e : Z) : 0 < 2 ^ e.
Proof. apply Qpower_0_lt. reflexivity. Qed.

Lemma pow2_le (e1 e2 : Z) : (e1 <= e2)%Z -> 2 ^ e1 <= 2 ^ e2.
Proof. intros H. apply Qpower_le_compat_l; [exact H | discriminate]. Qed.

Lemma pow2_lt_inv (e1 e2 : Z) : 2 ^ e1 < 2 ^ e2 -> (e1 < e2)%Z.
Proof. intros H. apply (Qpower_lt_compat_l_inv 2 e1 e2 H). reflexivity. Qed.

Lemma pow2_add (e1 e2 : Z) : 2 ^ (e1 + e2) == 2 ^ e1 * 2 ^ e2.
Proof. apply Qpower_plus. discriminate. Qed.

Lemma pow2_sub (e1 e2 : Z) : 2 ^ (e1 - e2) == 2 ^ e1 / 2 ^ e2.
Proof. apply Qpower_minus. discriminate. Qed.

Lemma pow2_Z (n : Z) : (0 <= n)%Z -> 2 ^ n == inject_Z (2 ^ n).
Proof. intros H. rewrite Zpower_Qpower by exact H. reflexivity. Qed.

(** [ilog2 a] is the exponent of the binade of [a]. *)
Lemma ilog2_spec (a : Q) :
  0 < a -> 2 ^ ilog2 a <= a /\ a < 2 ^ (ilog2 a + 1).
Proof.
  intros Ha. destruct a as [n d]. unfold ilog2. simpl Qnum. simpl Qden.
  assert (Hn : (0 < n)%Z).
  { unfold Qlt in Ha. simpl in Ha. lia. }
  pose proof (Z.log2_spec n Hn) as [Hn1 Hn2].
  pose proof (Z.log2_spec (Zpos d) ltac:(lia)) as [Hd1 Hd2].
  pose proof (Z.log2_nonneg n) as Hln.
  pose proof (Z.log2_nonneg (Zpos d)) as Hld.
  set (ln := Z.log2 n) in *. set (ld := Z.log2 (Zpos d)) in *.
  assert (Hq : n # d == inject_Z n / inject_Z (Zpos d)) by apply Qmake_Qdiv.
  assert (Hdpos : 0 < inject_Z (Zpos d)) by reflexivity.
  assert (HN1 : 2 ^ ln <= inject_Z n).
  { rewrite pow2_Z by exact Hln. rewrite <- Zle_Qle. exact Hn1. }
  assert (HN2 : inject_Z n < 2 ^ (ln + 1)).
  { rewrite pow2_Z by lia. rewrite <- Zlt_Qlt. exact Hn2. }
  assert (HD1 : 2 ^ ld <= inject_Z (Zpos d)).
  { rewrite pow2_Z by exact Hld. rewrite <- Zle_Qle. exact Hd1. }
  assert (HD2 : inject_Z (Zpos d) < 2 ^ (ld + 1)).
  { rewrite pow2_Z by lia. rewrite <- Zlt_Qlt. exact Hd2. }
  assert (Hlow : 2 ^ (ln - ld - 1) <= n # d).
  { rewrite Hq. apply Qle_shift_div_l; [exact Hdpos|].
    apply Qle_trans with (2 ^ (ln - ld - 1) * 2 ^ (ld + 1)).
    - apply Qmult_le_l; [apply pow2_pos | apply Qlt_le_weak; exact HD2].
    - rewrite <- pow2_add. replace (ln - ld - 1 + (ld + 1))%Z with ln by lia.
      exact HN1. }
  assert (Hhigh : n # d < 2 ^ (ln - ld + 1)).
  { rewrite Hq. apply Qlt_shift_div_r; [exact Hdpos|].
    apply Qlt_le_trans with (2 ^ (ln + 1)); [exact HN2|].
    replace (ln + 1)%Z with (ln - ld + 1 + ld)%Z by lia.
    rewrite pow2_add. apply Qmult_le_l; [apply pow2_pos | exact HD1]. }
  destruct (Qle_bool (2 ^ (ln - ld)) (n # d)) eqn:E.
  - apply Qle_bool_iff in E. split; [exact E | exact Hhigh].
  - split; [exact Hlow|].
    replace (ln - ld - 1 + 1)%Z with (ln - ld)%Z by lia.
    apply Qnot_le_lt. intros H. apply Qle_bool_iff in H. congruence.
Qed.

Lemma ilog2_mono (a b : Q) : 0 < a -> a <= b -> (ilog2 a <= ilog2 b)%Z.
Proof.
  intros Ha Hab.
  assert (Hb : 0 < b) by (eapply Qlt_le_trans; eauto).
  destruct (ilog2_spec a Ha) as [Ha1 _].
  destruct (ilog2_spec b Hb) as [_ Hb2].
  assert (H : 2 ^ ilog2 a < 2 ^ (ilog2 b + 1)).
  { eapply Qle_lt_trans; [exact Ha1|]. eapply Qle_lt_trans; eauto. }
  apply pow2_lt_inv in H. lia.
Qed.

End Pow2.

(** ** Doubles: rounding to nearest keeps the order *)

Section Rounding.
Local Open Scope Q_scope.

Lemma round_half_even_mono x y :
  x <= y -> (round_half_even x <= round_half_even y)%Z.
Proof.
  intros Hxy. unfold round_half_even.
  pose proof (Qfloor_resp_le x y Hxy) as Hf.
  destruct (Z.eq_dec (Qfloor x) (Qfloor y)) as [Heq|Hne].
  - rewrite Heq.
    destruct (Qcompare_spec (x - inject_Z (Qfloor y)) (1 # 2)),
             (Qcompare_spec (y - inject_Z (Qfloor y)) (1 # 2));
      destruct (Z.even (Qfloor y)); first [lia | exfalso; lra].
  - destruct (Qcompare (x - inject_Z (Qfloor x)) (1 # 2)),
             (Qcompare (y - inject_Z (Qfloor y)) (1 # 2));
      destruct (Z.even (Qfloor x)), (Z.even (Qfloor y)); lia.
Qed.

Lemma round_half_even_Z (z : Z) : round_half_even (inject_Z z) = z.
Proof.
  unfold round_half_even. rewrite Qfloor_Z.
  destruct (Qcompare_spec (inject_Z z - inject_Z z) (1 # 2));
    first [reflexivity | exfalso; lra].
Qed.

Lemma round_half_even_le_Z (x : Q) (z : Z) :
  x <= inject_Z z -> (round_half_even x <= z)%Z.
Proof.
  intros H. rewrite <- (round_half_even_Z z). apply round_half_even_mono. exact H.
Qed.

Lemma round_half_even_ge_Z (x : Q) (z : Z) :
  inject_Z z <= x -> (z <= round_half_even x)%Z.
Proof.
  intros H. rewrite <- (round_half_even_Z z) at 1. apply round_half_even_mono. exact H.
Qed.

Lemma ulp_exponent_mono (a b : Q) :
  0 < a -> a <= b -> (ulp_exponent a <= ulp_exponent b)%Z.
Proof.
  intros Ha Hab. unfold ulp_exponent.
  pose proof (ilog2_mono a b Ha Hab). lia.
Qed.

Lemma scaled_le (a b : Q) (f : Z) : a <= b -> a / 2 ^ f <= b / 2 ^ f.
Proof.
  intros H. apply Qmult_le_compat_r; [exact H|].
  apply Qlt_le_weak, Qinv_lt_0_compat, pow2_pos.
Qed.

Lemma scaled_pow2 (k f : Z) : (f <= k)%Z -> 2 ^ k / 2 ^ f == inject_Z (2 ^ (k - f)).
Proof.
  intros H. rewrite <- pow2_sub. apply pow2_Z. lia.
Qed.

Lemma unscaled_pow2 (k f : Z) :
  (f <= k)%Z -> inject_Z (2 ^ (k - f)) * 2 ^ f == 2 ^ k.
Proof.
  intros H. rewrite <- pow2_Z by lia. rewrite <- pow2_add.
  replace (k - f + f)%Z with k by lia. reflexivity.
Qed.

Lemma round_magnitude_nonneg (a : Q) : 0 <= a -> 0 <= round_magnitude a.
Proof.
  intros Ha. unfold round_magnitude.
  apply Qmult_le_0_compat; [|apply Qlt_le_weak, pow2_pos].
  change 0 with (inject_Z 0). rewrite <- Zle_Qle.
  apply round_half_even_ge_Z. simpl.
  apply Qmult_le_0_compat; [exact Ha|].
  apply Qlt_le_weak, Qinv_lt_0_compat, pow2_pos.
Qed.

(** Rounding does not cross a power of two that the format holds. *)
Lemma round_magnitude_le_pow2 (a : Q) (k : Z) :
  a <= 2 ^ k -> (ulp_exponent a <= k)%Z -> round_magnitude a <= 2 ^ k.
Proof.
  intros Ha Hk. unfold round_magnitude.
  rewrite <- (unscaled_pow2 k (ulp_exponent a) Hk).
  apply Qmult_le_compat_r; [|apply Qlt_le_weak, pow2_pos].
  rewrite <- Zle_Qle. apply round_half_even_le_Z.
  rewrite <- (scaled_pow2 k (ulp_exponent a) Hk). apply scaled_le. exact Ha.
Qed.

Lemma round_magnitude_ge_pow2 (a : Q) (k : Z) :
  2 ^ k <= a -> (ulp_exponent a <= k)%Z -> 2 ^ k <= round_magnitude a.
Proof.
  intros Ha Hk. unfold round_magnitude.
  rewrite <- (unscaled_pow2 k (ulp_exponent a) Hk).
  apply Qmult_le_compat_r; [|apply Qlt_le_weak, pow2_pos].
  rewrite <- Zle_Qle. apply round_half_even_ge_Z.
  rewrite <- (scaled_pow2 k (ulp_exponent a) Hk). apply scaled_le. exact Ha.
Qed.

(** Rounding to nearest keeps the order. *)
Lemma round_magnitude_mono (a b : Q) :
  0 < a -> a <= b -> round_magnitude a <= round_magnitude b.
Proof.
  intros Ha Hab.
  assert (Hb : 0 < b) by (eapply Qlt_le_trans; eauto).
  pose proof (ulp_exponent_mono a b Ha Hab) as Hf.
  destruct (Z.eq_dec (ulp_exponent a) (ulp_exponent b)) as [Heq|Hne].
  - unfold round_magnitude. rewrite Heq.
    apply Qmult_le_compat_r; [|apply Qlt_le_weak, pow2_pos].
    rewrite <- Zle_Qle. apply round_half_even_mono. apply scaled_le. exact Hab.
  - destruct (ilog2_spec a Ha) as [_ Ha2].
    destruct (ilog2_spec b Hb) as [Hb1 _].
    assert (Hfb : ulp_exponent b = (ilog2 b - 52)%Z).
    { unfold ulp_exponent in *. lia. }
    assert (Hlt : (ilog2 a + 1 <= ilog2 b)%Z).
    { unfold ulp_exponent in *. lia. }
    apply Qle_trans with (2 ^ ilog2 b).
    + apply round_magnitude_le_pow2; [|lia].
      apply Qle_trans with (2 ^ (ilog2 a + 1));
        [apply Qlt_le_weak; exact Ha2 | apply pow2_le; exact Hlt].
    + apply round_magnitude_ge_pow2; [exact Hb1 | lia].
Qed.

Lemma rounded_zero (q : Q) : q == 0 -> rounded q = 0.
Proof.
  intros H. unfold rounded.
  destruct (Qcompare_spec q 0) as [_|Hlt|Hgt]; [reflexivity | |];
    exfalso; rewrite H in *; apply (Qlt_irrefl 0); assumption.
Qed.

Lemma rounded_pos (q : Q) : 0 < q -> rounded q = round_magnitude q.
Proof.
  intros H. unfold rounded.
  destruct (Qcompare_spec q 0) as [Heq|Hlt|_]; [| |reflexivity]; exfalso.
  - rewrite Heq in H. apply (Qlt_irrefl 0). exact H.
  - apply (Qlt_irrefl 0). eapply Qlt_trans; eauto.
Qed.

Lemma rounded_neg (q : Q) : q < 0 -> rounded q = - round_magnitude (- q).
Proof.
  intros H. unfold rounded.
  destruct (Qcompare_spec q 0) as [Heq|_|Hgt]; [|reflexivity|]; exfalso.
  - rewrite Heq in H. apply (Qlt_irrefl 0). exact H.
  - apply (Qlt_irrefl 0). eapply Qlt_trans; eauto.
Qed.

Lemma rounded_nonneg (q : Q) : 0 <= q -> 0 <= rounded q.
Proof.
  intros H. destruct (Qlt_le_dec 0 q) as [Hpos|Hle].
  - rewrite rounded_pos by exact Hpos. apply round_magnitude_nonneg. exact H.
  - rewrite rounded_zero; [apply Qle_refl | apply Qle_antisym; assumption].
Qed.

Lemma rounded_nonpos (q : Q) : q <= 0 -> rounded q <= 0.
Proof.
  intros H. destruct (Qlt_le_dec q 0) as [Hneg|Hle].
  - rewrite rounded_neg by exact Hneg.
    pose proof (round_magnitude_nonneg (- q) ltac:(lra)). lra.
  - rewrite rounded_zero; [apply Qle_refl | apply Qle_antisym; assumption].
Qed.

Lemma rounded_mono (p q : Q) : p <= q -> rounded p <= rounded q.
Proof.
  intros Hpq.
  destruct (Qlt_le_dec 0 p) as [Hp|Hp].
  - rewrite !rounded_pos by lra. apply round_magnitude_mono; assumption.
  - destruct (Qlt_le_dec q 0) as [Hq|Hq].
    + rewrite !rounded_neg by lra.
      pose proof (round_magnitude_mono (- q) (- p) ltac:(lra) ltac:(lra)). lra.
    + pose proof (rounded_nonpos p Hp). pose proof (rounded_nonneg q Hq). lra.
Qed.

End Rounding.

(** ** Doubles: the operations and the order *)

Section DoubleOrder.
Local Open Scope Q_scope.

Implicit Types (x y s t : double) (p q : Q) (z : bool).


(** The three outcomes of a conversion: overflow either way, or the
    rounded value. *)
Lemma of_Q_cases z q :
  (2 ^ 1024 <= rounded q /\ of_Q z q = Infinity false) \/
  (rounded q <= - 2 ^ 1024 /\ of_Q z q = Infinity true) \/
  (- 2 ^ 1024 < rounded q /\ rounded q < 2 ^ 1024 /\
   finite (of_Q z q) /\ val (of_Q z q) == rounded q).
Proof.
  unfold of_Q. cbv zeta.
  destruct (Qle_bool (2 ^ 1024) (rounded q)) eqn:Hhi.
  - left. apply Qle_bool_iff in Hhi. auto.
  - assert (Hhi' : rounded q < 2 ^ 1024).
    { apply Qnot_le_lt. intros H. apply Qle_bool_iff in H. congruence. }
    destruct (Qle_bool (rounded q) (- 2 ^ 1024)) eqn:Hlo.
    + right. left. apply Qle_bool_iff in Hlo. auto.
    + assert (Hlo' : - 2 ^ 1024 < rounded q).
      { apply Qnot_le_lt. intros H. apply Qle_bool_iff in H. congruence. }
      right. right. split; [exact Hlo'|]. split; [exact Hhi'|].
      destruct (Qeq_bool (rounded q) 0) eqn:Hz.
      * apply Qeq_bool_iff in Hz. split; [split; reflexivity|].
        simpl. symmetry. exact Hz.
      * split; [split; reflexivity|]. simpl. apply Qred_correct.
Qed.






















Lemma rounded_one : 1 <= rounded 1.
Proof.
  rewrite rounded_pos by reflexivity.
  change 1 with (2 ^ 0) at 1.
  apply round_magnitude_ge_pow2; [apply Qle_refl | vm_compute; discriminate].
Qed.

(** A positive integer converts to a positive double or to infinity. *)
Lemma of_int_pos (n : Z) :
  (0 < n)%Z ->
  of_int n = Infinity false \/
  (finite (of_int n) /\ 0 < val (of_int n) /\ is_zero (of_int n) = false).
Proof.
  intros H.
  assert (Hr : 1 <= rounded (inject_Z n)).
  { eapply Qle_trans; [apply rounded_one|]. apply rounded_mono.
    change 1 with (inject_Z 1). rewrite <- Zle_Qle. lia. }
  pose proof (pow2_pos 1024) as Hbig.
  unfold of_int.
  destruct (of_Q_cases false (inject_Z n)) as [[_ ->] | [[Hq _] | (_ & _ & Hf & Hv)]].
  - left. reflexivity.
  - exfalso. lra.
  - right. split; [exact Hf|]. split; [rewrite Hv; lra|].
    destruct (of_Q false (inject_Z n)) as [s|q|s|] eqn:E; simpl in *.
    + exfalso. lra.
    + destruct (Qeq_bool q 0) eqn:Hz; [|reflexivity].
      apply Qeq_bool_iff in Hz. exfalso. lra.
    + reflexivity.
    + reflexivity.
Qed.




(** A positive [int] does not convert to a zero. *)
Lemma of_int_not_zero (n : Z) : (0 < n)%Z -> is_zero (of_int n) = false.
Proof.
  intros H. destruct (of_int_pos n H) as [-> | (_ & _ & Hz)];
    [reflexivity | exact Hz].
Qed.


End DoubleOrder.

(** ** One segment *)

Section SegmentFacts.

Implicit Types (segment : RawSegment).

Lemma segment_entries_short segment :
  len (strip (seg_text segment)) <= MAX_TEXT_LENGTH ->
  segment_entries segment =
  Some [ {| time := round2 (seg_start segment);
            text := strip (seg_text segment) |} ].
Proof.
  intros H. unfold segment_entries.
  destruct (Z.gtb_spec (len (strip (seg_text segment))) MAX_TEXT_LENGTH);
    [lia | reflexivity].
Qed.

Lemma segment_entries_long segment :
  len (strip (seg_text segment)) > MAX_TEXT_LENGTH ->
  exists parts,
    split_text (length (strip (seg_text segment))) (strip (seg_text segment))
               MAX_TEXT_LENGTH = Some parts /\
    segment_entries segment =
    Some (imap (fun j part =>
                  {| time := round2 (fadd (round2 (seg_start segment))
                                          (fmul (of_int (Z.of_nat j))
                                                (time_per_part
                                                   (fsub (round2 (seg_end segment))
                                                         (round2 (seg_start segment)))
                                                   parts)));
                     text := part |})
               parts).
Proof.
  intros H.
  destruct (split_text_total (length (strip (seg_text segment)))
              (strip (seg_text segment)) MAX_TEXT_LENGTH
              ltac:(unfold MAX_TEXT_LENGTH; lia) (le_n _))
    as [parts [Hparts _]].
  exists parts. split; [exact Hparts|].
  unfold segment_entries.
  destruct (Z.gtb_spec (len (strip (seg_text segment))) MAX_TEXT_LENGTH);
    [|lia].
  rewrite Hparts. reflexivity.
Qed.

(** The loop body never runs out of fuel. *)
Lemma segment_entries_total segment :
  exists entries, segment_entries segment = Some entries.
Proof.
  destruct (Z.le_gt_cases (len (strip (seg_text segment))) MAX_TEXT_LENGTH)
    as [Hle|Hgt].
  - rewrite (segment_entries_short _ Hle). eauto.
  - destruct (segment_entries_long segment ltac:(lia)) as [parts [_ ->]]. eauto.
Qed.

(** The whole conversion returns. *)
Lemma convert_total segment_list :
  forall data, exists data', convert data segment_list = Some data'.
Proof.
  induction segment_list as [|segment segments IH]; intros data; simpl.
  - eauto.
  - destruct (segment_entries_total segment) as [entries ->]. apply IH.
Qed.

(** Only a blank segment gives an entry with the empty text. *)
Lemma nonblank_segment_entries_nonempty segment :
  strip (seg_text segment) <> [] ->
  exists entries,
    segment_entries segment = Some entries /\
    Forall (fun e => text e <> []) entries.
Proof.
  intros Hne.
  destruct (Z.le_gt_cases (len (strip (seg_text segment))) MAX_TEXT_LENGTH)
    as [Hle|Hgt].
  - rewrite (segment_entries_short _ Hle). eexists. split; [reflexivity|].
    constructor; [exact Hne | constructor].
  - destruct (segment_entries_long segment ltac:(lia)) as [parts [Hparts ->]].
    eexists. split; [reflexivity|].
    assert (Hm : 1 <= MAX_TEXT_LENGTH) by (unfold MAX_TEXT_LENGTH; lia).
    assert (Hgt' : len (strip (seg_text segment)) > MAX_TEXT_LENGTH) by lia.
    destruct (split_text_long _ _ _ _ Hgt' Hparts)
      as [chunks [text' [Hrun ->]]].
    assert (Hall : Forall (fun part => part <> [])
                          (with_remainder chunks text')).
    { apply with_remainder_nonempty.
      apply (loop_run_chunks_nonempty _ _ _ _ Hm Hrun).
      destruct (strip_starts (seg_text segment)); [contradiction | assumption]. }
    apply Forall_lookup. intros j e Hj.
    rewrite list_lookup_imap in Hj.
    destruct (with_remainder chunks text' !! j) as [part|] eqn:Hpart;
      [|discriminate].
    injection Hj as <-. simpl.
    rewrite Forall_lookup in Hall. apply (Hall j part Hpart).
Qed.

End SegmentFacts.

(** ** The claims about [split_text] *)

(** C7: a text no longer than [max_len] comes back as the one-element
    list holding the text itself, unchanged. *)
Theorem C7_short_text_unchanged (fuel : nat) (text : str) (max_len : Z) :
  len text <= max_len -> split_text fuel text max_len = Some [text].
Proof. apply split_text_short. Qed.

Lemma C7_short_text_unchanged_witness :
  len sentence <= 60 /\ split_text 0 sentence 60 = Some [sentence].
Proof.
  split; [by_evaluation|].
  apply (C7_short_text_unchanged 0 sentence 60). by_evaluation.
Defined.

(** C2: for a text longer than [max_len >= 1], [split_text] returns, and
    every chunk it returns has at most [max_len] characters. *)
Theorem C2_chunks_within_max_len (fuel : nat) (text : str) (max_len : Z) :
  1 <= max_len -> len text > max_len -> (length text <= fuel)%nat ->
  exists parts,
    split_text fuel text max_len = Some parts /\
    Forall (fun part => len part <= max_len) parts.
Proof.
  intros Hm Hgt Hfuel.
  destruct (split_text_total fuel text max_len Hm Hfuel) as [parts [Hparts _]].
  exists parts. split; [exact Hparts|].
  destruct (split_text_long _ _ _ _ Hgt Hparts) as [chunks [text' [Hrun ->]]].
  pose proof (loop_run_chunk_len _ _ _ _ Hm Hrun) as Hchunks.
  pose proof (loop_run_exit_len _ _ _ _ Hrun) as Hlast.
  destruct text' as [|c text']; simpl; [exact Hchunks|].
  apply Forall_app. split; [exact Hchunks|]. constructor; [exact Hlast | constructor].
Qed.

Lemma C2_chunks_within_max_len_witness :
  1 <= 10 /\ len sentence > 10 /\ (length sentence <= 51)%nat /\
  exists parts,
    split_text 51 sentence 10 = Some parts /\
    Forall (fun part => len part <= 10) parts.
Proof.
  repeat (split; [by_evaluation|]).
  apply (C2_chunks_within_max_len 51 sentence 10); by_evaluation.
Defined.

(** C3: for [max_len >= 1], the chunks of [split_text] concatenated in
    order are the text with some whitespace characters deleted; the other
    characters are all there, in their order. *)
Theorem C3_chunks_rebuild_text (fuel : nat) (text : str) (max_len : Z) :
  1 <= max_len -> (length text <= fuel)%nat ->
  exists parts,
    split_text fuel text max_len = Some parts /\
    ws_deleted text (concat parts) /\
    List.filter (fun c => negb (isspace c)) (concat parts)
    = List.filter (fun c => negb (isspace c)) text.
Proof.
  intros Hm Hfuel.
  destruct (split_text_total fuel text max_len Hm Hfuel) as [parts [Hparts _]].
  exists parts. split; [exact Hparts|].
  assert (Hws : ws_deleted text (concat parts)).
  { destruct (Z.le_gt_cases (len text) max_len) as [Hle|Hgt].
    - rewrite (split_text_short fuel _ _ Hle) in Hparts. injection Hparts as <-.
      simpl. rewrite app_nil_r. apply ws_deleted_refl.
    - destruct (split_text_long fuel text max_len parts ltac:(lia) Hparts)
        as [chunks [text' [Hrun ->]]].
      rewrite with_remainder_concat. apply (loop_run_ws_deleted _ _ _ _ Hrun). }
  split; [exact Hws | apply ws_deleted_visible; exact Hws].
Qed.

Lemma C3_chunks_rebuild_text_witness :
  1 <= 10 /\ (length sentence <= 51)%nat /\
  exists parts,
    split_text 51 sentence 10 = Some parts /\
    ws_deleted sentence (concat parts) /\
    List.filter (fun c => negb (isspace c)) (concat parts)
    = List.filter (fun c => negb (isspace c)) sentence.
Proof.
  repeat (split; [by_evaluation|]).
  apply (C3_chunks_rebuild_text 51 sentence 10); by_evaluation.
Defined.

(** C9: for a text longer than [max_len >= 1], [split_text] returns at
    least one chunk, so the time per part is the duration divided by the
    number of parts, a divisor that is not zero, and the [else 0] branch
    is not taken. *)
Theorem C9_at_least_one_part (fuel : nat) (text : str) (max_len : Z) :
  1 <= max_len -> len text > max_len -> (length text <= fuel)%nat ->
  exists parts,
    split_text fuel text max_len = Some parts /\
    1 <= len parts /\
    is_zero (of_int (len parts)) = false /\
    forall duration,
      time_per_part duration parts = fdiv duration (of_int (len parts)).
Proof.
  intros Hm Hgt Hfuel.
  destruct (split_text_total fuel text max_len Hm Hfuel) as [parts [Hparts _]].
  exists parts. split; [exact Hparts|].
  assert (Hlen : 1 <= len parts).
  { destruct (split_text_long _ _ _ _ Hgt Hparts) as [chunks [text' [Hrun ->]]].
    pose proof (loop_run_entered _ _ _ _ Hrun Hgt) as Hne.
    destruct chunks as [|c chunks]; [congruence|].
    unfold len. destruct text'; cbn [with_remainder];
      rewrite ?length_app; cbn [length]; lia. }
  split; [exact Hlen|]. split; [apply of_int_not_zero; lia|].
  intros duration. unfold time_per_part.
  destruct (Z.gtb_spec (len parts) 0); [reflexivity | lia].
Qed.

Lemma C9_at_least_one_part_witness :
  1 <= 10 /\ len sentence > 10 /\ (length sentence <= 51)%nat /\
  exists parts,
    split_text 51 sentence 10 = Some parts /\
    1 <= len parts /\
    is_zero (of_int (len parts)) = false /\
    forall duration,
      time_per_part duration parts = fdiv duration (of_int (len parts)).
Proof.
  repeat (split; [by_evaluation|]).
  apply (C9_at_least_one_part 51 sentence 10); by_evaluation.
Defined.

(** C10: for [max_len >= 1], [split_text] terminates on every text: fuel
    equal to the length of the text is enough and more fuel gives the same
    result, because every iteration of the loop splits at a position of at
    least 0 and leaves a strictly shorter text. *)
Theorem C10_split_text_terminates (text : str) (max_len : Z) :
  1 <= max_len ->
  (exists parts, forall fuel,
      (length text <= fuel)%nat -> split_text fuel text max_len = Some parts) /\
  (forall remaining,
      len remaining > max_len ->
      0 <= split_pos remaining max_len /\
      len (rest remaining max_len) < len remaining).
Proof.
  intros Hm. split.
  - destruct (split_text_total (length text) text max_len Hm (le_n _))
      as [parts [Hparts _]].
    exists parts. intros fuel Hfuel.
    destruct (split_text_total fuel text max_len Hm Hfuel) as [parts' [H1 H2]].
    congruence.
  - intros remaining Hgt. split.
    + apply split_pos_bounds. exact Hm.
    + apply len_rest; assumption.
Qed.

Lemma C10_split_text_terminates_witness :
  1 <= 10 /\
  (exists parts, forall fuel,
      (length sentence <= fuel)%nat -> split_text fuel sentence 10 = Some parts) /\
  (forall remaining,
      len remaining > 10 ->
      0 <= split_pos remaining 10 /\
      len (rest remaining 10) < len remaining).
Proof.
  split; [by_evaluation|].
  apply (C10_split_text_terminates sentence 10). by_evaluation.
Defined.

(** C4: in an iteration of the loop the split position is the largest
    index among the first [max_len] characters that holds a character of
    the punctuation set, whichever mark it is; when there is no such index
    or it is 0, the split position is [max_len - 1]. The last three parts
    say that [rightmost_boundary] is that largest index and that the set is
    the one of the list [punctuations]. *)
Theorem C4_split_at_rightmost_boundary (text : str) (max_len : Z) :
  0 <= max_len -> len text > max_len ->
  split_pos text max_len =
    match rightmost_boundary text (Z.to_nat max_len) with
    | Some i => if Nat.eqb i 0 then max_len - 1 else Z.of_nat i
    | None => max_len - 1
    end /\
  (forall i,
      rightmost_boundary text (Z.to_nat max_len) = Some i <->
      (i < Z.to_nat max_len)%nat /\
      (exists c, text !! i = Some c /\ is_boundary c = true) /\
      (forall j c, (i < j < Z.to_nat max_len)%nat ->
                   text !! j = Some c -> is_boundary c = false)) /\
  (rightmost_boundary text (Z.to_nat max_len) = None <->
   forall j c, (j < Z.to_nat max_len)%nat ->
               text !! j = Some c -> is_boundary c = false) /\
  (forall c, is_boundary c = true <-> In [c] punctuations).
Proof.
  intros Hm _. split; [|split; [|split]].
  - unfold split_pos. rewrite scan_punctuations_rightmost.
    unfold rightmost_boundary. rewrite (slice_to_take text max_len Hm).
    destruct (last_index_where is_boundary (take (Z.to_nat max_len) text))
      as [[|i]|]; reflexivity.
  - intros i. unfold rightmost_boundary. split.
    + intros H. pose proof (last_index_where_lt _ _ _ H) as Hlt.
      rewrite length_take in Hlt.
      apply last_index_where_Some in H. destruct H as [[c [Hc HP]] Hlast].
      apply lookup_take_Some in Hc. destruct Hc as [Hc Hi].
      split; [lia|]. split; [exists c; auto|].
      intros j d Hj Hd. apply (Hlast j d); [lia|].
      rewrite lookup_take_lt by lia. exact Hd.
    + intros [Hi [[c [Hc HP]] Hlast]]. apply last_index_where_Some. split.
      * exists c. split; [|exact HP]. rewrite lookup_take_lt by lia. exact Hc.
      * intros j d Hj Hd. apply lookup_take_Some in Hd. destruct Hd as [Hd Hjm].
        apply (Hlast j d); [lia | exact Hd].
  - unfold rightmost_boundary. rewrite last_index_where_None. split.
    + intros HN j c Hj Hc. apply (HN j c).
      rewrite lookup_take_lt by lia. exact Hc.
    + intros H j c Hc.
      apply lookup_take_Some in Hc. destruct Hc as [Hc Hj]. apply (H j c Hj Hc).
  - intros c. rewrite punctuations_chars. split.
    + intros H. unfold is_boundary, one_of in H. apply existsb_exists in H.
      destruct H as [x [Hx Heq]]. apply N.eqb_eq in Heq. subst x.
      apply in_map_iff. exists c. auto.
    + intros H. apply in_map_iff in H.
      destruct H as [x [Heq Hx]]. injection Heq as ->.
      unfold is_boundary, one_of. apply existsb_exists. exists c.
      split; [exact Hx | apply N.eqb_refl].
Qed.

Lemma C4_split_at_rightmost_boundary_witness :
  0 <= 10 /\ len sentence > 10 /\
  split_pos sentence 10 = 6 /\
  rightmost_boundary sentence 10 = Some 6%nat.
Proof.
  split; [by_evaluation|]. split; [by_evaluation|].
  destruct (C4_split_at_rightmost_boundary sentence 10) as [Hpos _];
    [by_evaluation | by_evaluation |].
  split; [rewrite Hpos|]; reflexivity.
Defined.

(** ** The claims about the conversion loop *)

(** C1, what the code does on a concrete input: a segment of three
    spaces is not skipped; one entry with the empty text is appended. *)
Lemma C1_blank_segment_counterexample :
  strip (seg_text blank_segment) = [] /\
  segment_entries blank_segment
  = Some [ {| time := of_decimal 1; text := [] |} ] /\
  segment_entries blank_segment <> Some [] /\
  convert [] [blank_segment] = Some [ {| time := of_decimal 1; text := [] |} ].
Proof.
  split; [reflexivity|]. split; [vm_compute; reflexivity|].
  split; [discriminate | vm_compute; reflexivity].
Qed.

(** C1, amended: a segment whose text is empty or all whitespace after
    trimming appends exactly one entry, with the empty text and with the
    start of the segment rounded to hundredths as its time. *)
Theorem C1_blank_segment_one_entry (segment : RawSegment) :
  strip (seg_text segment) = [] ->
  segment_entries segment =
    Some [ {| time := round2 (seg_start segment); text := [] |} ] /\
  forall data,
    convert data [segment] =
    Some (data ++ [ {| time := round2 (seg_start segment); text := [] |} ]).
Proof.
  intros Hblank.
  assert (H : segment_entries segment =
              Some [ {| time := round2 (seg_start segment); text := [] |} ]).
  { rewrite segment_entries_short; rewrite Hblank; [reflexivity|].
    unfold MAX_TEXT_LENGTH, len. simpl. lia. }
  split; [exact H|]. intros data. simpl. rewrite H. reflexivity.
Qed.

Lemma C1_blank_segment_one_entry_witness :
  strip (seg_text blank_segment) = [] /\
  segment_entries blank_segment =
    Some [ {| time := round2 (seg_start blank_segment); text := [] |} ].
Proof.
  split; [reflexivity|].
  apply (C1_blank_segment_one_entry blank_segment). reflexivity.
Defined.

(** C5, what the code does on a concrete input: the segment from 0.004 s
    to 0.014 s splits into three chunks, and the second entry has time 0,
    not the 0.01 that [start + 1 * (end - start) / 3] rounds to: the code
    rounds the start and the end of the segment before it divides. *)
Lemma C5_unrounded_start_counterexample :
  exists entries e,
    segment_entries short_segment = Some entries /\
    length entries = 3%nat /\
    entries !! 1%nat = Some e /\
    time e = of_decimal 0 /\
    claimed_time (seg_start short_segment) (seg_end short_segment) 3 1
    = of_decimal (1 # 100) /\
    time e <> claimed_time (seg_start short_segment)
                           (seg_end short_segment) 3 1 /\
    ~ fle (claimed_time (seg_start short_segment)
                        (seg_end short_segment) 3 1)
          (time e).
Proof.
  eexists. eexists.
  split; [vm_compute; reflexivity|].
  split; [reflexivity|]. split; [reflexivity|].
  split; [vm_compute; reflexivity|]. split; [vm_compute; reflexivity|].
  split; [vm_compute; discriminate|].
  vm_compute. intros H. apply H. reflexivity.
Qed.

(** C5, amended: when the text of a segment is split into [n] chunks,
    the entry of the chunk at index [j] has as time the double
    [round(s + j * ((e - s) / n), 2)], where [s = round(start, 2)] and
    [e = round(end, 2)] and every operation is the operation on doubles,
    in this order: the duration is divided by [n] first and the quotient
    is multiplied by [j]. From 0.0 s to 10.0 s and with three chunks the
    times are 0.0, 3.33 and 6.67. *)
Theorem C5_part_times (segment : RawSegment) :
  len (strip (seg_text segment)) > MAX_TEXT_LENGTH ->
  exists parts entries,
    split_text (length (strip (seg_text segment))) (strip (seg_text segment))
               MAX_TEXT_LENGTH = Some parts /\
    segment_entries segment = Some entries /\
    length entries = length parts /\
    (forall j part,
        parts !! j = Some part ->
        entries !! j =
        Some {| time := part_time (round2 (seg_start segment))
                                  (round2 (seg_end segment))
                                  (length parts) j;
                text := part |}) /\
    (seg_start segment = of_decimal 0 -> seg_end segment = of_decimal 10 ->
     length parts = 3%nat ->
     map time entries
     = [of_decimal 0; of_decimal (333 # 100); of_decimal (667 # 100)]).
Proof.
  intros Hlong.
  destruct (segment_entries_long segment Hlong) as [parts [Hparts Hentries]].
  eexists parts, _. split; [exact Hparts|]. split; [exact Hentries|].
  split; [apply length_imap|]. split.
  - intros j part Hj. rewrite list_lookup_imap, Hj. simpl. do 2 f_equal.
    unfold part_time, time_per_part.
    assert (Hpos : 0 < len parts).
    { apply lookup_lt_Some in Hj. unfold len. lia. }
    destruct (Z.gtb_spec (len parts) 0); [reflexivity | lia].
  - intros Hstart Hend Hthree.
    rewrite Hstart, Hend.
    destruct parts as [|p0 [|p1 [|p2 [|p3 parts]]]]; try discriminate.
    vm_compute. reflexivity.
Qed.

Lemma C5_part_times_witness :
  len (strip (seg_text ten_seconds)) > MAX_TEXT_LENGTH /\
  exists entries,
    segment_entries ten_seconds = Some entries /\
    map time entries
    = [of_decimal 0; of_decimal (333 # 100); of_decimal (667 # 100)].
Proof.
  split; [by_evaluation|].
  destruct (C5_part_times ten_seconds) as (parts & entries & Hp & He & _ & _ & Hex);
    [by_evaluation|].
  exists entries. split; [exact He|].
  apply Hex; [reflexivity | reflexivity |].
  vm_compute in Hp. injection Hp as <-. reflexivity.
Defined.




(** ** The model locator *)

Section LocatorFacts.

Local Open Scope string_scope.

Implicit Types (w : World) (model_name : string).

Lemma model_map_short_names model_name :
  is_Some (model_map !! model_name) <-> In model_name short_names.
Proof.
  split.
  - intros [folder H]. unfold model_map in H.
    repeat (rewrite lookup_insert in H;
            destruct (decide (_ = model_name)) as [<-|_]; [simpl; tauto|]).
    rewrite lookup_empty in H. discriminate.
  - intros H. simpl in H.
    repeat (destruct H as [<-|H]; [vm_compute; eauto|]). contradiction.
Qed.

Lemma first_snapshot_None w dir snapshots :
  (forall snapshot, In snapshot snapshots ->
                    holds_model w (path_join dir snapshot) = false) ->
  first_snapshot w dir snapshots = None.
Proof.
  induction snapshots as [|snapshot snapshots IH]; intros H; simpl.
  - reflexivity.
  - rewrite (H snapshot (or_introl eq_refl)).
    apply IH. intros s Hs. apply H. right. exact Hs.
Qed.

(** A cached model is found: the locator does resolve short names. *)
Example resolve_cached_base :
  resolve_model_path cached_world "base" =
  ("/root/.cache/huggingface/models--Systran--faster-whisper-base/snapshots/abc",
   [InfoFoundLocal
      "/root/.cache/huggingface/models--Systran--faster-whisper-base/snapshots/abc"]).
Proof. vm_compute. reflexivity. Qed.

End LocatorFacts.

(** C8: an identifier that is neither a directory holding the weights
    file nor a known short name, and a known short name none of whose
    snapshot directories under the models directory holds the weights
    file, both come back unchanged. *)
Theorem C8_unresolved_name_unchanged (w : World) (model_name : string) :
  (holds_model w model_name = false /\ ~ In model_name short_names) \/
  (In model_name short_names /\
   forall model_folder,
     model_map !! model_name = Some model_folder ->
     no_local_snapshot w model_folder) ->
  fst (resolve_model_path w model_name) = model_name.
Proof.
  intros H. unfold resolve_model_path.
  destruct (holds_model w model_name) eqn:Hdir; [reflexivity|].
  destruct (model_map !! model_name) as [model_folder|] eqn:Hmap;
    [|reflexivity].
  destruct H as [[_ Hshort] | [_ Hnone]].
  - exfalso. apply Hshort. apply model_map_short_names. eauto.
  - specialize (Hnone model_folder eq_refl).
    destruct (isdir w (snapshots_dir w model_folder)) eqn:Hsnap;
      [|reflexivity].
    rewrite (first_snapshot_None w _ _ (Hnone Hsnap)). reflexivity.
Qed.

Lemma C8_unresolved_name_unchanged_witness :
  (holds_model empty_world "Systran/faster-whisper-base" = false /\
   ~ In "Systran/faster-whisper-base"%string short_names) /\
  fst (resolve_model_path empty_world "Systran/faster-whisper-base")
  = "Systran/faster-whisper-base"%string /\
  (In "base"%string short_names /\
   forall model_folder,
     model_map !! "base"%string = Some model_folder ->
     no_local_snapshot stale_world model_folder) /\
  fst (resolve_model_path stale_world "base") = "base"%string.
Proof.
  assert (H1 : holds_model empty_world "Systran/faster-whisper-base" = false /\
               ~ In "Systran/faster-whisper-base"%string short_names).
  { split; [reflexivity|]. simpl. intuition discriminate. }
  assert (H2 : In "base"%string short_names /\
               forall model_folder,
                 model_map !! "base"%string = Some model_folder ->
                 no_local_snapshot stale_world model_folder).
  { split; [simpl; tauto|].
    intros model_folder _ _ snapshot _. unfold holds_model. apply andb_false_r. }
  split; [exact H1|]. split.
  - apply (C8_unresolved_name_unchanged empty_world). left. exact H1.
  - split; [exact H2|].
    apply (C8_unresolved_name_unchanged stale_world). right. exact H2.
Defined.

(** ** More on the model locator *)

Section LocatorSearch.

Implicit Types (w : World) (dir model_name : string).

(** What the snapshot loop returns is the first entry of the listing
    that holds a model. *)
Lemma first_snapshot_Some w dir snapshots path :
  first_snapshot w dir snapshots = Some path <->
  exists before snapshot after,
    snapshots = before ++ snapshot :: after /\
    path = path_join dir snapshot /\
    holds_model w path = true /\
    Forall (fun s => holds_model w (path_join dir s) = false) before.
Proof.
  revert path. induction snapshots as [|s snapshots IH]; intros path; simpl.
  - split; [discriminate|].
    intros (before & snapshot & after & Heq & _). destruct before; discriminate.
  - destruct (holds_model w (path_join dir s)) eqn:Hs.
    + split.
      * intros H. injection H as <-. exists [], s, snapshots. auto.
      * intros (before & snapshot & after & Heq & -> & _ & Hbefore).
        destruct before as [|b before]; simpl in Heq.
        -- injection Heq as <- _. reflexivity.
        -- injection Heq as <- _. inversion Hbefore; subst. congruence.
    + rewrite IH. split.
      * intros (before & snapshot & after & -> & -> & Hp & Hbefore).
        exists (s :: before), snapshot, after. auto.
      * intros (before & snapshot & after & Heq & -> & Hp & Hbefore).
        destruct before as [|b before]; simpl in Heq.
        -- injection Heq as <- _. congruence.
        -- injection Heq as <- ->. inversion Hbefore; subst.
           exists before, snapshot, after. auto.
Qed.

(** The three ways out of [resolve_model_path]. *)
Lemma resolve_model_path_cases w model_name :
  (holds_model w model_name = true /\
   resolve_model_path w model_name = (model_name, [])) \/
  (holds_model w model_name = false /\ model_map !! model_name = None /\
   resolve_model_path w model_name = (model_name, [])) \/
  (exists model_folder,
      holds_model w model_name = false /\
      model_map !! model_name = Some model_folder /\
      ((isdir w (snapshots_dir w model_folder) = false \/
        first_snapshot w (snapshots_dir w model_folder)
          (listdir w (snapshots_dir w model_folder)) = None) /\
       resolve_model_path w model_name
       = (model_name, [WarnNotFound model_name]) \/
       exists path,
         isdir w (snapshots_dir w model_folder) = true /\
         first_snapshot w (snapshots_dir w model_folder)
           (listdir w (snapshots_dir w model_folder)) = Some path /\
         resolve_model_path w model_name = (path, [InfoFoundLocal path]))).
Proof.
  unfold resolve_model_path.
  destruct (holds_model w model_name) eqn:Hdir; [left; auto|].
  destruct (model_map !! model_name) as [model_folder|] eqn:Hmap;
    [|right; left; auto].
  right. right. exists model_folder. split; [reflexivity|]. split; [reflexivity|].
  destruct (isdir w (snapshots_dir w model_folder)) eqn:Hsnap.
  - destruct (first_snapshot w _ _) as [path|] eqn:Hfirst.
    + right. exists path. auto.
    + left. auto.
  - left. auto.
Qed.

End LocatorSearch.

(** X1: a path other than the name given comes from the cache: the name
    is a short name, and the path is an entry of the listing of its
    snapshots directory, joined to that directory, that is a directory
    holding [model.bin]. *)
Theorem X1_resolved_path_is_cached_snapshot (w : World) (model_name : string) :
  fst (resolve_model_path w model_name) <> model_name ->
  In model_name short_names /\
  exists model_folder snapshot,
    model_map !! model_name = Some model_folder /\
    isdir w (snapshots_dir w model_folder) = true /\
    In snapshot (listdir w (snapshots_dir w model_folder)) /\
    fst (resolve_model_path w model_name)
    = path_join (snapshots_dir w model_folder) snapshot /\
    holds_model w (fst (resolve_model_path w model_name)) = true.
Proof.
  intros Hne.
  destruct (resolve_model_path_cases w model_name)
    as [[_ H] | [(_ & _ & H) | (model_folder & Hdir & Hmap & H)]];
    try (rewrite H in Hne; simpl in Hne; congruence).
  destruct H as [[_ H] | (path & Hsnap & Hfirst & H)];
    [rewrite H in Hne; simpl in Hne; congruence|].
  split; [apply model_map_short_names; eauto|].
  apply first_snapshot_Some in Hfirst.
  destruct Hfirst as (before & snapshot & after & Hlist & Hpath & Hholds & _).
  exists model_folder, snapshot. rewrite H. simpl.
  repeat split; try assumption.
  rewrite Hlist. apply in_or_app. right. left. reflexivity.
Qed.

Lemma X1_resolved_path_is_cached_snapshot_witness :
  fst (resolve_model_path cached_world "base") <> "base"%string /\
  holds_model cached_world (fst (resolve_model_path cached_world "base")) = true.
Proof.
  assert (H : fst (resolve_model_path cached_world "base") <> "base"%string)
    by (vm_compute; discriminate).
  split; [exact H|].
  destruct (X1_resolved_path_is_cached_snapshot cached_world "base" H)
    as (_ & _ & _ & _ & _ & _ & _ & Hholds).
  exact Hholds.
Defined.

(** X2: for a short name that is not itself a model directory, the
    first entry of the listing of the snapshots directory that holds
    [model.bin] is the one returned, and one line announcing it is
    printed; entries after it do not matter. *)
Theorem X2_first_snapshot_in_listing_wins
    (w : World) (model_name model_folder snapshot : string)
    (before after : list string) :
  holds_model w model_name = false ->
  model_map !! model_name = Some model_folder ->
  isdir w (snapshots_dir w model_folder) = true ->
  listdir w (snapshots_dir w model_folder) = before ++ snapshot :: after ->
  Forall (fun s => holds_model w (path_join (snapshots_dir w model_folder) s)
                   = false) before ->
  holds_model w (path_join (snapshots_dir w model_folder) snapshot) = true ->
  resolve_model_path w model_name
  = (path_join (snapshots_dir w model_folder) snapshot,
     [InfoFoundLocal (path_join (snapshots_dir w model_folder) snapshot)]).
Proof.
  intros Hdir Hmap Hsnap Hlist Hbefore Hholds.
  unfold resolve_model_path. rewrite Hdir, Hmap, Hsnap.
  assert (Hfirst : first_snapshot w (snapshots_dir w model_folder)
                     (listdir w (snapshots_dir w model_folder))
                   = Some (path_join (snapshots_dir w model_folder) snapshot)).
  { apply first_snapshot_Some. exists before, snapshot, after. auto. }
  rewrite Hfirst. reflexivity.
Qed.

Lemma X2_first_snapshot_in_listing_wins_witness :
  holds_model cached_world "base" = false /\
  resolve_model_path cached_world "base"
  = (path_join (snapshots_dir cached_world "models--Systran--faster-whisper-base") "abc",
     [InfoFoundLocal
        (path_join (snapshots_dir cached_world "models--Systran--faster-whisper-base") "abc")]).
Proof.
  split; [reflexivity|].
  apply (X2_first_snapshot_in_listing_wins cached_world "base"
           "models--Systran--faster-whisper-base" "abc" [] []);
    first [by_evaluation | constructor].
Defined.

(** X3: resolving is idempotent: the path returned, given again as the
    name, comes back as it is. *)
Theorem X3_resolve_idempotent (w : World) (model_name : string) :
  fst (resolve_model_path w (fst (resolve_model_path w model_name)))
  = fst (resolve_model_path w model_name).
Proof.
  destruct (resolve_model_path_cases w model_name)
    as [[_ H] | [(_ & _ & H) | (model_folder & Hdir & Hmap & H)]];
    try (rewrite H; simpl; rewrite H; reflexivity).
  destruct H as [[_ H] | (path & Hsnap & Hfirst & H)].
  - rewrite H. simpl. rewrite H. reflexivity.
  - rewrite H. simpl.
    apply first_snapshot_Some in Hfirst.
    destruct Hfirst as (_ & _ & _ & _ & _ & Hholds & _).
    unfold resolve_model_path. rewrite Hholds. reflexivity.
Qed.

(** X4: what is printed tells what happened. Nothing is printed exactly
    when the name is a model directory or is not a short name; the warning
    is printed exactly when a short name that is not a model directory is
    returned unresolved; otherwise one line names the path returned. *)
Theorem X4_diagnostics_tell_the_outcome (w : World) (model_name : string) :
  let path := fst (resolve_model_path w model_name) in
  let printed := snd (resolve_model_path w model_name) in
  (printed = [] /\ path = model_name /\
   (holds_model w model_name = true \/ ~ In model_name short_names)) \/
  (printed = [WarnNotFound model_name] /\ path = model_name /\
   holds_model w model_name = false /\ In model_name short_names) \/
  (printed = [InfoFoundLocal path] /\ holds_model w path = true /\
   holds_model w model_name = false /\ In model_name short_names).
Proof.
  simpl.
  destruct (resolve_model_path_cases w model_name)
    as [[Hdir H] | [(Hdir & Hmap & H) | (model_folder & Hdir & Hmap & H)]].
  - left. rewrite H. simpl. auto.
  - left. rewrite H. simpl. split; [reflexivity|]. split; [reflexivity|].
    right. intros Hin. apply model_map_short_names in Hin.
    destruct Hin as [folder Hfolder]. congruence.
  - assert (Hshort : In model_name short_names)
      by (apply model_map_short_names; eauto).
    destruct H as [[_ H] | (path & Hsnap & Hfirst & H)]; rewrite H; simpl.
    + right. left. auto.
    + right. right. apply first_snapshot_Some in Hfirst.
      destruct Hfirst as (_ & _ & _ & _ & _ & Hholds & _). auto.
Qed.

(** ** More on [strip] and on one iteration *)

Section TrimmingFacts.

Implicit Types (s t : str) (c : char) (text : str) (max_len : Z).

Lemma lstrip_visible s : starts_visible s -> lstrip s = s.
Proof. destruct s as [|c s]; simpl; [contradiction|]. intros ->. reflexivity. Qed.

Lemma lstrip_idem s : lstrip (lstrip s) = lstrip s.
Proof.
  destruct (lstrip_starts s) as [-> | Hvis]; [reflexivity|].
  apply lstrip_visible. exact Hvis.
Qed.

Lemma rstrip_idem s : rstrip (rstrip s) = rstrip s.
Proof. unfold rstrip. rewrite rev_involutive, lstrip_idem. reflexivity. Qed.

(** Trimming twice is trimming once. *)
Lemma strip_idem s : strip (strip s) = strip s.
Proof.
  unfold strip. destruct (lstrip_starts s) as [-> | Hvis]; [reflexivity|].
  destruct (lstrip s) as [|c t]; [contradiction|]. simpl in Hvis.
  destruct (rstrip_visible c t Hvis) as [t' Ht'].
  rewrite Ht' at 1. simpl. rewrite Hvis, <- Ht'. apply rstrip_idem.
Qed.

Lemma lstrip_no_space s :
  Forall (fun c => isspace c = false) s -> lstrip s = s.
Proof. intros H. destruct H as [|c s Hc _]; simpl; [|rewrite Hc]; reflexivity. Qed.

Lemma strip_no_space s :
  Forall (fun c => isspace c = false) s -> strip s = s.
Proof.
  intros H. unfold strip, rstrip. rewrite (lstrip_no_space s H).
  rewrite lstrip_no_space by (apply Forall_rev; exact H).
  apply rev_involutive.
Qed.

(** A text that ends with a visible character still ends with it after
    trimming. *)
Lemma strip_snoc_visible s c :
  isspace c = false -> exists s', strip (s ++ [c]) = s' ++ [c].
Proof.
  intros Hc. unfold strip.
  destruct (lstrip_snoc_visible s c Hc) as [s1 ->].
  exists s1. unfold rstrip. rewrite rev_app_distr. simpl. rewrite Hc.
  simpl. rewrite rev_involutive. reflexivity.
Qed.

Lemma slice_from_drop s k : 0 <= k -> slice_from s k = drop (Z.to_nat k) s.
Proof.
  intros Hk. unfold slice_from.
  pose proof (slice_bound_nonneg (len s) k Hk (len_nonneg s)) as Hb.
  destruct (Z.le_gt_cases k (len s)) as [Hle|Hgt].
  - f_equal. lia.
  - unfold len in *. rewrite !drop_ge by lia. reflexivity.
Qed.

(** With [max_len = 0] the window is empty and nothing is consumed. *)
Lemma split_pos_zero text : split_pos text 0 = -1.
Proof.
  unfold split_pos.
  pose proof (scan_punctuations_bounds text 0 ltac:(lia)) as H.
  destruct (Z.leb_spec (scan_punctuations text 0) 0); lia.
Qed.

Lemma rest_zero text : rest text 0 = strip text.
Proof.
  unfold rest. rewrite split_pos_zero. rewrite slice_from_drop by lia.
  reflexivity.
Qed.

Lemma chunk_zero text : chunk text 0 = [].
Proof.
  unfold chunk. rewrite split_pos_zero. rewrite slice_to_take by lia.
  reflexivity.
Qed.

Lemma strip_nonempty_len s : strip s <> [] -> len s > 0.
Proof.
  destruct s as [|a s]; [intros H; exfalso; apply H; reflexivity|].
  intros _. unfold len. simpl. lia.
Qed.

Lemma split_loop_zero_visible fuel : forall text result,
  strip text <> [] -> split_loop fuel text 0 result = None.
Proof.
  induction fuel as [|fuel IH]; intros text result Hvis;
    pose proof (strip_nonempty_len text Hvis) as Hlen; simpl;
    destruct (Z.gtb_spec (len text) 0); try lia; [reflexivity|].
  apply IH. rewrite rest_zero, strip_idem. exact Hvis.
Qed.

Lemma split_loop_negative fuel : forall text max_len result,
  max_len < 0 -> split_loop fuel text max_len result = None.
Proof.
  induction fuel as [|fuel IH]; intros text max_len result Hm; simpl;
    pose proof (len_nonneg text);
    destruct (Z.gtb_spec (len text) max_len); try lia; [reflexivity|].
  apply IH. exact Hm.
Qed.

End TrimmingFacts.

(** X5: with a negative [max_len] the loop of [split_text] is never
    left, whatever the text; with [max_len = 0] it is never left when the
    text has a visible character. No amount of fuel gives a result. *)
Theorem X5_nonpositive_max_len_never_returns
    (fuel : nat) (text : str) (max_len : Z) :
  max_len < 0 \/ (max_len = 0 /\ strip text <> []) ->
  split_text fuel text max_len = None.
Proof.
  intros [Hneg | [-> Hvis]]; unfold split_text.
  - pose proof (len_nonneg text).
    destruct (Z.leb_spec (len text) max_len); [lia|].
    rewrite split_loop_negative by exact Hneg. reflexivity.
  - pose proof (strip_nonempty_len text Hvis).
    destruct (Z.leb_spec (len text) 0); [lia|].
    rewrite split_loop_zero_visible by exact Hvis. reflexivity.
Qed.

Lemma X5_nonpositive_max_len_never_returns_witness :
  (0 = 0 /\ strip alphabet <> []) /\
  split_text 1000 alphabet 0 = None /\
  split_text 1000 [] (-1) = None.
Proof.
  assert (H : 0 = 0 /\ strip alphabet <> []) by (split; by_evaluation).
  split; [exact H|]. split.
  - apply (X5_nonpositive_max_len_never_returns 1000 alphabet 0). right. exact H.
  - apply (X5_nonpositive_max_len_never_returns 1000 [] (-1)). left. lia.
Defined.

(** X6: with [max_len = 0] a text that is empty or all whitespace gives
    the one-element list holding the empty string. *)
Theorem X6_zero_max_len_blank_text (fuel : nat) (text : str) :
  strip text = [] -> split_text (S fuel) text 0 = Some [[]].
Proof.
  intros Hblank. unfold split_text.
  destruct (Z.leb_spec (len text) 0) as [Hle|Hgt].
  - destruct text; [reflexivity|]. unfold len in Hle. simpl in Hle. lia.
  - simpl. destruct (Z.gtb_spec (len text) 0); [|lia].
    rewrite rest_zero, chunk_zero, Hblank.
    destruct fuel; reflexivity.
Qed.

Lemma X6_zero_max_len_blank_text_witness :
  strip (of_string "   ") = [] /\
  split_text 1 (of_string "   ") 0 = Some [[]].
Proof.
  split; [reflexivity|].
  apply (X6_zero_max_len_blank_text 0 (of_string "   ")). reflexivity.
Defined.

(** ** More on the loop of [split_text] *)

Section LoopShape.

Implicit Types (text : str) (max_len : Z) (chunks : list str).

(** Every chunk is trimmed, and so is the text left once the loop has
    run at least once. *)
Lemma loop_run_trimmed max_len text chunks text' :
  loop_run max_len text chunks text' ->
  Forall trimmed chunks /\ (chunks <> [] -> trimmed text').
Proof.
  induction 1 as [text Hle | text chunks text' Hgt Hrun [IHc IHt]].
  - split; [constructor | congruence].
  - split.
    + constructor; [apply strip_idem | exact IHc].
    + intros _. destruct chunks as [|c chunks].
      * inversion Hrun; subst. apply strip_idem.
      * apply IHt. discriminate.
Qed.

(** The loop runs at most [len(text) - max_len] times. *)
Lemma loop_run_count max_len text chunks text' :
  1 <= max_len -> loop_run max_len text chunks text' ->
  len chunks <= Z.max 0 (len text - max_len).
Proof.
  intros Hm. induction 1 as [text Hle | text chunks text' Hgt Hrun IH].
  - unfold len at 1. simpl. lia.
  - pose proof (len_rest text max_len Hm Hgt).
    unfold len at 1. simpl length. unfold len at 1 in IH. lia.
Qed.

(** A text that ends with a visible character leaves the loop with a
    text that ends with it. *)
Lemma loop_run_last max_len text chunks text' c :
  1 <= max_len -> loop_run max_len text chunks text' ->
  last text = Some c -> isspace c = false -> last text' = Some c.
Proof.
  intros Hm. induction 1 as [text Hle | text chunks text' Hgt Hrun IH];
    intros Hlast Hc; [exact Hlast|].
  apply IH; [|exact Hc].
  pose proof (split_pos_bounds text max_len Hm) as Hpos.
  unfold rest. rewrite slice_from_drop by lia.
  set (k := Z.to_nat (split_pos text max_len + 1)).
  assert (Hk : (k < length text)%nat) by (unfold len in Hgt; lia).
  assert (Hd : exists d, drop k text = d ++ [c]).
  { destruct (drop k text) as [|a d] eqn:Hdrop using rev_ind.
    - apply (f_equal length) in Hdrop. rewrite length_drop in Hdrop.
      simpl in Hdrop. lia.
    - exists d. rewrite <- (take_drop k text), Hdrop, app_assoc in Hlast.
      rewrite last_snoc in Hlast. congruence. }
  destruct Hd as [d ->].
  destruct (strip_snoc_visible d c Hc) as [s' ->]. apply last_snoc.
Qed.

Lemma unbroken_no_boundary (s : str) :
  unbroken s -> last_index_where is_boundary s = None.
Proof.
  intros H. apply last_index_where_None. intros j c Hj.
  unfold unbroken in H. rewrite Forall_lookup in H.
  apply (H j c Hj).
Qed.

Lemma unbroken_strip (s : str) : unbroken s -> strip s = s.
Proof.
  intros H. apply strip_no_space.
  eapply Forall_impl; [exact H|]. intros c [_ Hc]. exact Hc.
Qed.

Lemma split_pos_unbroken text max_len :
  0 <= max_len -> unbroken text -> split_pos text max_len = max_len - 1.
Proof.
  intros Hm H. unfold split_pos. rewrite scan_punctuations_rightmost.
  rewrite slice_to_take by exact Hm.
  rewrite unbroken_no_boundary by (apply Forall_take; exact H).
  reflexivity.
Qed.

Lemma chunk_unbroken text max_len :
  0 <= max_len -> unbroken text ->
  chunk text max_len = take (Z.to_nat max_len) text.
Proof.
  intros Hm H. unfold chunk. rewrite split_pos_unbroken by assumption.
  replace (max_len - 1 + 1) with max_len by lia.
  rewrite slice_to_take by exact Hm.
  apply unbroken_strip. apply Forall_take. exact H.
Qed.

Lemma rest_unbroken text max_len :
  0 <= max_len -> unbroken text ->
  rest text max_len = drop (Z.to_nat max_len) text.
Proof.
  intros Hm H. unfold rest. rewrite split_pos_unbroken by assumption.
  replace (max_len - 1 + 1) with max_len by lia.
  rewrite slice_from_drop by exact Hm.
  apply unbroken_strip. apply Forall_drop. exact H.
Qed.

(** On an unbroken text every iteration cuts exactly [max_len]
    characters and loses none. *)
Lemma loop_run_unbroken max_len text chunks text' :
  0 <= max_len -> loop_run max_len text chunks text' -> unbroken text ->
  concat chunks ++ text' = text /\
  Forall (fun part => len part = max_len) chunks.
Proof.
  intros Hm. induction 1 as [text Hle | text chunks text' Hgt Hrun IH];
    intros H.
  - split; [reflexivity | constructor].
  - rewrite (rest_unbroken text max_len Hm H) in IH.
    destruct (IH ltac:(apply Forall_drop; exact H)) as [Hcat Hlen].
    rewrite (chunk_unbroken text max_len Hm H). split.
    + simpl. rewrite <- app_assoc, Hcat. apply take_drop.
    + constructor; [|exact Hlen].
      unfold len in *. rewrite length_take. lia.
Qed.

End LoopShape.

(** X7: the parts of a text longer than [max_len >= 1] are all trimmed:
    [strip] leaves each of them as it is. When the text begins with a
    visible character, none of them is empty. *)
Theorem X7_parts_are_trimmed (fuel : nat) (text : str) (max_len : Z) :
  1 <= max_len -> len text > max_len -> (length text <= fuel)%nat ->
  exists parts,
    split_text fuel text max_len = Some parts /\
    Forall trimmed parts /\
    (starts_visible text -> Forall (fun part => part <> []) parts).
Proof.
  intros Hm Hgt Hfuel.
  destruct (split_text_total fuel text max_len Hm Hfuel) as [parts [Hparts _]].
  exists parts. split; [exact Hparts|].
  destruct (split_text_long _ _ _ _ Hgt Hparts) as [chunks [text' [Hrun ->]]].
  destruct (loop_run_trimmed _ _ _ _ Hrun) as [Hchunks Htext'].
  pose proof (loop_run_entered _ _ _ _ Hrun Hgt) as Hne.
  split.
  - destruct text' as [|c text']; simpl; [exact Hchunks|].
    apply Forall_app. split; [exact Hchunks|].
    constructor; [apply Htext'; exact Hne | constructor].
  - intros Hvis. apply with_remainder_nonempty.
    apply (loop_run_chunks_nonempty _ _ _ _ Hm Hrun Hvis).
Qed.

Lemma X7_parts_are_trimmed_witness :
  1 <= 10 /\ len sentence > 10 /\ (length sentence <= 51)%nat /\
  exists parts,
    split_text 51 sentence 10 = Some parts /\
    Forall trimmed parts /\
    (starts_visible sentence -> Forall (fun part => part <> []) parts).
Proof.
  repeat (split; [by_evaluation|]).
  apply (X7_parts_are_trimmed 51 sentence 10); by_evaluation.
Defined.

(** X8: a text longer than [max_len >= 1] gives at most
    [len(text) - max_len + 1] parts, and at least two when its last
    character is visible. *)
Theorem X8_number_of_parts (fuel : nat) (text : str) (max_len : Z) :
  1 <= max_len -> len text > max_len -> (length text <= fuel)%nat ->
  exists parts,
    split_text fuel text max_len = Some parts /\
    len parts <= len text - max_len + 1 /\
    (forall c, last text = Some c -> isspace c = false -> 2 <= len parts).
Proof.
  intros Hm Hgt Hfuel.
  destruct (split_text_total fuel text max_len Hm Hfuel) as [parts [Hparts _]].
  exists parts. split; [exact Hparts|].
  destruct (split_text_long _ _ _ _ Hgt Hparts) as [chunks [text' [Hrun ->]]].
  pose proof (loop_run_count _ _ _ _ Hm Hrun) as Hcount.
  pose proof (loop_run_entered _ _ _ _ Hrun Hgt) as Hne.
  split.
  - destruct text'; simpl; [lia|]. rewrite len_app. unfold len at 2. simpl. lia.
  - intros c Hlast Hc.
    pose proof (loop_run_last _ _ _ _ c Hm Hrun Hlast Hc) as Hlast'.
    destruct text' as [|a text']; [discriminate|]. simpl.
    rewrite len_app. unfold len. simpl.
    destruct chunks; [congruence | simpl; lia].
Qed.

Lemma X8_number_of_parts_witness :
  1 <= 10 /\ len sentence > 10 /\ (length sentence <= 51)%nat /\
  exists parts,
    split_text 51 sentence 10 = Some parts /\
    len parts <= len sentence - 10 + 1 /\
    (forall c, last sentence = Some c -> isspace c = false -> 2 <= len parts).
Proof.
  repeat (split; [by_evaluation|]).
  apply (X8_number_of_parts 51 sentence 10); by_evaluation.
Defined.

(** X9: a text longer than [max_len >= 1] with no punctuation mark of
    the list and no whitespace is cut into pieces of exactly [max_len]
    characters, the last one possibly shorter, and the pieces put together
    are the text. *)
Theorem X9_unbroken_text_fixed_width (fuel : nat) (text : str) (max_len : Z) :
  1 <= max_len -> len text > max_len -> (length text <= fuel)%nat ->
  unbroken text ->
  exists parts,
    split_text fuel text max_len = Some parts /\
    concat parts = text /\
    (forall j part,
        parts !! j = Some part -> (S j < length parts)%nat ->
        len part = max_len).
Proof.
  intros Hm Hgt Hfuel Hunbroken.
  destruct (split_text_total fuel text max_len Hm Hfuel) as [parts [Hparts _]].
  exists parts. split; [exact Hparts|].
  destruct (split_text_long _ _ _ _ Hgt Hparts) as [chunks [text' [Hrun ->]]].
  assert (Hm0 : 0 <= max_len) by lia.
  destruct (loop_run_unbroken _ _ _ _ Hm0 Hrun Hunbroken) as [Hcat Hlen].
  split; [rewrite with_remainder_concat; exact Hcat|].
  intros j part Hj Hnotlast. rewrite Forall_lookup in Hlen.
  destruct text' as [|a text']; simpl in Hj, Hnotlast.
  - apply (Hlen j part Hj).
  - rewrite length_app in Hnotlast. simpl in Hnotlast.
    rewrite lookup_app_l in Hj by lia. apply (Hlen j part Hj).
Qed.

Lemma X9_unbroken_text_fixed_width_witness :
  1 <= 10 /\ len alphabet > 10 /\ (length alphabet <= 26)%nat /\
  unbroken alphabet /\
  exists parts,
    split_text 26 alphabet 10 = Some parts /\
    concat parts = alphabet /\
    (forall j part,
        parts !! j = Some part -> (S j < length parts)%nat ->
        len part = 10).
Proof.
  assert (H : unbroken alphabet).
  { unfold unbroken, alphabet. simpl.
    repeat (constructor; [split; reflexivity|]). constructor. }
  repeat (split; [by_evaluation|]). split; [exact H|].
  apply (X9_unbroken_text_fixed_width 26 alphabet 10);
    first [exact H | by_evaluation].
Defined.

(** X10: when an iteration cuts at a punctuation mark that is not
    whitespace (any mark of the list but the space), the chunk ends with
    that mark and the text left is what follows the mark, trimmed. *)
Theorem X10_chunk_ends_with_mark
    (text : str) (max_len : Z) (i : nat) (c : char) :
  0 <= max_len ->
  rightmost_boundary text (Z.to_nat max_len) = Some i -> (0 < i)%nat ->
  text !! i = Some c -> isspace c = false ->
  last (chunk text max_len) = Some c /\
  rest text max_len = strip (drop (S i) text).
Proof.
  intros Hm Hright Hi Hc Hvis.
  assert (Hpos : split_pos text max_len = Z.of_nat i).
  { unfold split_pos. rewrite scan_punctuations_rightmost.
    rewrite slice_to_take by exact Hm.
    unfold rightmost_boundary in Hright. rewrite Hright. simpl.
    destruct (Z.leb_spec (Z.of_nat i) 0); [lia | reflexivity]. }
  unfold chunk, rest. rewrite Hpos.
  rewrite slice_to_take, slice_from_drop by lia.
  replace (Z.to_nat (Z.of_nat i + 1)) with (S i) by lia.
  split; [|reflexivity].
  rewrite (take_S_r text i c Hc).
  destruct (strip_snoc_visible (take i text) c Hvis) as [s' ->].
  apply last_snoc.
Qed.

Lemma X10_chunk_ends_with_mark_witness :
  0 <= 25 /\ rightmost_boundary three_clauses 25 = Some 20%nat /\
  last (chunk three_clauses 25) = Some 44%N.
Proof.
  split; [by_evaluation|]. split; [reflexivity|].
  apply (X10_chunk_ends_with_mark three_clauses 25 20 44%N);
    first [by_evaluation | reflexivity].
Defined.

(** ** More on the conversion loop *)

Section ConversionFacts.

Implicit Types (segment : RawSegment) (segment_list : list RawSegment)
  (data : list SubtitleEntry).

Lemma split_text_parts_len fuel (text : str) max_len parts :
  1 <= max_len -> split_text fuel text max_len = Some parts ->
  Forall (fun part => len part <= max_len) parts.
Proof.
  intros Hm Hparts.
  destruct (Z.le_gt_cases (len text) max_len) as [Hle|Hgt].
  - rewrite (split_text_short fuel _ _ Hle) in Hparts. injection Hparts as <-.
    constructor; [exact Hle | constructor].
  - assert (Hgt' : len text > max_len) by lia.
    destruct (split_text_long _ _ _ _ Hgt' Hparts) as [chunks [text' [Hrun ->]]].
    pose proof (loop_run_chunk_len _ _ _ _ Hm Hrun) as Hchunks.
    pose proof (loop_run_exit_len _ _ _ _ Hrun) as Hlast.
    destruct text' as [|c text']; simpl; [exact Hchunks|].
    apply Forall_app. split; [exact Hchunks|].
    constructor; [exact Hlast | constructor].
Qed.

(** The two shapes of what a segment appends. *)
Lemma segment_entries_cases segment :
  (len (strip (seg_text segment)) <= MAX_TEXT_LENGTH /\
   segment_entries segment =
   Some [ {| time := round2 (seg_start segment);
             text := strip (seg_text segment) |} ]) \/
  (len (strip (seg_text segment)) > MAX_TEXT_LENGTH /\
   exists parts,
     split_text (length (strip (seg_text segment))) (strip (seg_text segment))
                MAX_TEXT_LENGTH = Some parts /\
     parts <> [] /\
     segment_entries segment =
     Some (imap (fun j part =>
                   {| time := round2 (fadd (round2 (seg_start segment))
                                           (fmul (of_int (Z.of_nat j))
                                                 (time_per_part
                                                    (fsub (round2 (seg_end segment))
                                                          (round2 (seg_start segment)))
                                                    parts)));
                      text := part |})
                parts)).
Proof.
  destruct (Z.le_gt_cases (len (strip (seg_text segment))) MAX_TEXT_LENGTH)
    as [Hle|Hgt].
  - left. split; [exact Hle | apply segment_entries_short; exact Hle].
  - right. assert (Hgt' : len (strip (seg_text segment)) > MAX_TEXT_LENGTH) by lia.
    split; [exact Hgt'|].
    destruct (segment_entries_long segment Hgt') as [parts [Hparts Hentries]].
    exists parts. split; [exact Hparts|]. split; [|exact Hentries].
    destruct (split_text_long _ _ _ _ Hgt' Hparts) as [chunks [text' [Hrun ->]]].
    pose proof (loop_run_entered _ _ _ _ Hrun Hgt') as Hne.
    destruct chunks; [congruence|]. destruct text'; discriminate.
Qed.

(** The loop only appends: what it returns from [data] is [data]
    followed by what it returns from the empty list. *)
Lemma convert_from data segment_list :
  convert data segment_list
  = option_map (app data) (convert [] segment_list).
Proof.
  revert data. induction segment_list as [|segment segments IH]; intros data;
    simpl.
  - rewrite app_nil_r. reflexivity.
  - destruct (segment_entries segment) as [entries|]; [|reflexivity].
    rewrite (IH (data ++ entries)), (IH entries).
    destruct (convert [] segments) as [out|]; simpl; [|reflexivity].
    rewrite app_assoc. reflexivity.
Qed.

Lemma convert_cons segment segments :
  exists entries out,
    segment_entries segment = Some entries /\
    convert [] segments = Some out /\
    convert [] (segment :: segments) = Some (entries ++ out).
Proof.
  destruct (segment_entries_total segment) as [entries Hentries].
  destruct (convert_total segments []) as [out Hout].
  exists entries, out. split; [exact Hentries|]. split; [exact Hout|].
  simpl. rewrite Hentries, convert_from, Hout. reflexivity.
Qed.

(** A property of the entries of every segment is a property of all the
    output. *)
Lemma convert_Forall (P : SubtitleEntry -> Prop) segment_list :
  (forall segment entries,
      In segment segment_list ->
      segment_entries segment = Some entries -> Forall P entries) ->
  exists out, convert [] segment_list = Some out /\ Forall P out.
Proof.
  induction segment_list as [|segment segments IH]; intros HP.
  - exists []. split; [reflexivity | constructor].
  - destruct (convert_cons segment segments)
      as (entries & out & Hentries & Hout & ->).
    eexists. split; [reflexivity|].
    apply Forall_app. split.
    + apply (HP segment entries (or_introl eq_refl) Hentries).
    + destruct IH as (out' & Hout' & HPout).
      * intros s es Hs. apply HP. right. exact Hs.
      * congruence.
Qed.

Lemma segment_entries_nonempty segment entries :
  segment_entries segment = Some entries -> entries <> [].
Proof.
  intros H.
  destruct (segment_entries_cases segment)
    as [[_ Hshort] | (_ & parts & _ & Hne & Hlong)].
  - rewrite Hshort in H. injection H as <-. discriminate.
  - rewrite Hlong in H. injection H as <-.
    destruct parts; [congruence | discriminate].
Qed.

End ConversionFacts.

(** X11: no text in the output of the conversion loop is longer than 25
    characters, whatever the segments. *)
Theorem X11_no_entry_longer_than_25 (segment_list : list RawSegment) :
  exists out,
    convert [] segment_list = Some out /\
    Forall (fun e => len (text e) <= 25) out.
Proof.
  apply convert_Forall. intros segment entries _ Hentries.
  destruct (segment_entries_cases segment)
    as [[Hle Hshort] | (_ & parts & Hparts & _ & Hlong)].
  - rewrite Hshort in Hentries. injection Hentries as <-.
    constructor; [exact Hle | constructor].
  - rewrite Hlong in Hentries. injection Hentries as <-.
    assert (Hm : 1 <= MAX_TEXT_LENGTH) by (unfold MAX_TEXT_LENGTH; lia).
    pose proof (split_text_parts_len _ _ _ _ Hm Hparts) as Hlen.
    apply Forall_lookup. intros j e Hj. rewrite list_lookup_imap in Hj.
    destruct (parts !! j) as [part|] eqn:Hpart; [|discriminate].
    injection Hj as <-. simpl.
    rewrite Forall_lookup in Hlen. apply (Hlen j part Hpart).
Qed.

(** X12: every segment appends at least one entry, so the output has at
    least as many entries as there are segments; it has exactly as many
    when no trimmed text is longer than 25 characters. *)
Theorem X12_one_entry_per_segment_at_least (segment_list : list RawSegment) :
  exists out,
    convert [] segment_list = Some out /\
    (length segment_list <= length out)%nat /\
    (Forall (fun segment => len (strip (seg_text segment)) <= MAX_TEXT_LENGTH)
            segment_list ->
     length out = length segment_list).
Proof.
  induction segment_list as [|segment segments IH].
  - exists []. split; [reflexivity|]. split; [simpl; lia | reflexivity].
  - destruct (convert_cons segment segments)
      as (entries & out & Hentries & Hout & ->).
    destruct IH as (out' & Hout' & Hge & Heq).
    assert (out' = out) by congruence. subst out'.
    eexists. split; [reflexivity|]. rewrite length_app.
    pose proof (segment_entries_nonempty _ _ Hentries) as Hne.
    split.
    + destruct entries; [congruence | simpl; lia].
    + intros Hall. inversion Hall as [|s l Hshort Hrest]; subst.
      rewrite (segment_entries_short _ Hshort) in Hentries.
      injection Hentries as <-. simpl. rewrite (Heq Hrest). reflexivity.
Qed.

(** X13: segments are converted independently and in order: the output
    for one list of segments followed by another is the output for the
    first followed by the output for the second. *)
Theorem X13_output_of_concatenation (segments1 segments2 : list RawSegment) :
  exists out1 out2,
    convert [] segments1 = Some out1 /\
    convert [] segments2 = Some out2 /\
    convert [] (segments1 ++ segments2) = Some (out1 ++ out2).
Proof.
  destruct (convert_total segments2 []) as [out2 Hout2].
  induction segments1 as [|segment segments1 IH].
  - exists [], out2. auto.
  - destruct IH as (out1 & out2' & Hout1 & Hout2' & Happ).
    assert (out2' = out2) by congruence. subst out2'.
    destruct (segment_entries_total segment) as [entries Hentries].
    exists (entries ++ out1), out2.
    split; [|split; [exact Hout2|]]; simpl; rewrite Hentries, convert_from.
    + rewrite Hout1. reflexivity.
    + rewrite Happ. simpl. rewrite app_assoc. reflexivity.
Qed.

(** ** The texts of the output *)

Section TextFacts.

Implicit Types (segment : RawSegment) (parts : list str)
  (entries : list SubtitleEntry).

Lemma imap_text (f : nat -> list char -> SubtitleEntry) parts :
  (forall j part, text (f j part) = part) -> text <$> imap f parts = parts.
Proof.
  revert f. induction parts as [|part parts IH]; intros f Hf; [reflexivity|].
  rewrite imap_cons, fmap_cons, Hf. f_equal.
  apply IH. intros j p. apply Hf.
Qed.

(** The texts of the entries of a segment: the trimmed text itself, or
    its parts. *)
Lemma segment_entries_texts segment entries :
  segment_entries segment = Some entries ->
  (len (strip (seg_text segment)) <= MAX_TEXT_LENGTH /\
   text <$> entries = [strip (seg_text segment)]) \/
  (len (strip (seg_text segment)) > MAX_TEXT_LENGTH /\
   split_text (length (strip (seg_text segment))) (strip (seg_text segment))
              MAX_TEXT_LENGTH = Some (text <$> entries)).
Proof.
  intros Hentries.
  destruct (segment_entries_cases segment)
    as [[Hle Hshort] | (Hgt & parts & Hparts & _ & Hlong)].
  - left. rewrite Hshort in Hentries. injection Hentries as <-. auto.
  - right. rewrite Hlong in Hentries. injection Hentries as <-.
    split; [exact Hgt|]. rewrite imap_text by reflexivity. exact Hparts.
Qed.

Lemma split_text_long_trimmed fuel (t : str) max_len parts :
  len t > max_len -> split_text fuel t max_len = Some parts ->
  Forall trimmed parts.
Proof.
  intros Hgt Hparts.
  destruct (split_text_long _ _ _ _ Hgt Hparts) as [chunks [text' [Hrun ->]]].
  destruct (loop_run_trimmed _ _ _ _ Hrun) as [Hchunks Htext'].
  pose proof (loop_run_entered _ _ _ _ Hrun Hgt) as Hne.
  destruct text' as [|c text']; simpl; [exact Hchunks|].
  apply Forall_app. split; [exact Hchunks|].
  constructor; [apply Htext'; exact Hne | constructor].
Qed.

Lemma segment_entries_trimmed segment entries :
  segment_entries segment = Some entries ->
  Forall (fun e => trimmed (text e)) entries.
Proof.
  intros Hentries. change (Forall (trimmed ∘ text) entries).
  apply Forall_fmap.
  destruct (segment_entries_texts _ _ Hentries) as [[_ ->] | [Hgt Hparts]].
  - constructor; [apply strip_idem | constructor].
  - apply (split_text_long_trimmed _ _ _ _ Hgt Hparts).
Qed.

(** The texts of a segment's entries, put together, are the text of the
    segment with some whitespace deleted. *)
Lemma segment_entries_ws_deleted segment entries :
  segment_entries segment = Some entries ->
  ws_deleted (seg_text segment) (concat (text <$> entries)).
Proof.
  intros Hentries.
  apply ws_deleted_trans with (strip (seg_text segment));
    [apply ws_deleted_strip|].
  destruct (segment_entries_texts _ _ Hentries) as [[_ ->] | [Hgt Hparts]].
  - simpl. rewrite app_nil_r. apply ws_deleted_refl.
  - destruct (split_text_long _ _ _ _ Hgt Hparts) as [chunks [text' [Hrun ->]]].
    rewrite with_remainder_concat. apply (loop_run_ws_deleted _ _ _ _ Hrun).
Qed.

End TextFacts.

(** X16: every text of the output is trimmed: it has no whitespace at
    either end. When no segment is blank, no text of the output is
    empty. *)
Theorem X16_output_texts_trimmed (segment_list : list RawSegment) :
  exists out,
    convert [] segment_list = Some out /\
    Forall (fun e => trimmed (text e)) out /\
    (Forall (fun segment => strip (seg_text segment) <> []) segment_list ->
     Forall (fun e => text e <> []) out).
Proof.
  destruct (convert_Forall (fun e => trimmed (text e)) segment_list)
    as (out & Hout & Htrimmed).
  { intros segment entries _. apply segment_entries_trimmed. }
  exists out. split; [exact Hout|]. split; [exact Htrimmed|].
  intros Hnonblank.
  destruct (convert_Forall (fun e => text e <> []) segment_list)
    as (out' & Hout' & Hnonempty).
  { intros segment entries Hin Hentries.
    rewrite Forall_forall in Hnonblank.
    destruct (nonblank_segment_entries_nonempty segment)
      as (entries' & Hentries' & Hall).
    - apply Hnonblank. apply list_elem_of_In. exact Hin.
    - congruence. }
  congruence.
Qed.

(** X17: nothing but whitespace is lost: the texts of the output, put
    together in order and with whitespace taken out, are the texts of the
    segments, put together in order and with whitespace taken out. *)
Theorem X17_output_keeps_visible_characters (segment_list : list RawSegment) :
  exists out,
    convert [] segment_list = Some out /\
    List.filter (fun c => negb (isspace c)) (concat (text <$> out))
    = List.filter (fun c => negb (isspace c))
                  (concat (seg_text <$> segment_list)).
Proof.
  induction segment_list as [|segment segments IH].
  - exists []. split; reflexivity.
  - destruct (convert_cons segment segments)
      as (entries & out & Hentries & Hout & ->).
    destruct IH as (out' & Hout' & Hvisible).
    assert (out' = out) by congruence. subst out'.
    eexists. split; [reflexivity|].
    rewrite fmap_app, fmap_cons, concat_app. simpl concat.
    rewrite !List.filter_app, Hvisible. f_equal.
    apply ws_deleted_visible. apply segment_entries_ws_deleted. exact Hentries.
Qed.

(** ** The progress lines *)

Section ProgressFacts.

Implicit Types (i total : nat).

(** After segment [i] of [total] the value printed is
    [50 + 40 * (i + 1) // total]. *)
Lemma progress_quotient i total :
  (i < total)%nat ->
  progress i total = 50 + 40 * (Z.of_nat i + 1) / Z.of_nat total.
Proof.
  intros Hi. unfold progress, py_int.
  replace (Z.max (Z.of_nat total) 1) with (Z.of_nat total) by lia.
  assert (Htotal : (0 < inject_Z (Z.of_nat total))%Q).
  { change 0%Q with (inject_Z 0). rewrite <- Zlt_Qlt. lia. }
  assert (Hnum : (0 <= inject_Z (Z.of_nat i + 1))%Q).
  { change 0%Q with (inject_Z 0). rewrite <- Zle_Qle. lia. }
  assert (Hq : (inject_Z (Z.of_nat i + 1) / inject_Z (Z.of_nat total) * 40
                == inject_Z (40 * (Z.of_nat i + 1)) / inject_Z (Z.of_nat total))%Q).
  { rewrite inject_Z_mult. unfold Qdiv. ring. }
  assert (Hnonneg : (0 <= inject_Z (Z.of_nat i + 1)
                          / inject_Z (Z.of_nat total) * 40)%Q).
  { apply Qmult_le_0_compat; [|lra].
    apply Qmult_le_0_compat; [exact Hnum|].
    apply Qinv_le_0_compat. lra. }
  apply Qle_bool_iff in Hnonneg. rewrite Hnonneg.
  f_equal. rewrite (Qfloor_comp _ _ Hq). symmetry. apply Zdiv_Qdiv.
Qed.

Lemma progress_bounds i total :
  (i < total)%nat -> 50 <= progress i total <= 90.
Proof.
  intros Hi. rewrite progress_quotient by exact Hi.
  assert (0 <= 40 * (Z.of_nat i + 1) / Z.of_nat total)
    by (apply Z.div_pos; lia).
  assert (40 * (Z.of_nat i + 1) / Z.of_nat total <= 40).
  { apply Z.div_le_upper_bound; lia. }
  lia.
Qed.

Lemma progress_mono i i' total :
  (i <= i')%nat -> (i' < total)%nat -> progress i total <= progress i' total.
Proof.
  intros Hii Hi'. rewrite !progress_quotient by lia.
  apply Z.add_le_mono_l. apply Z.div_le_mono; lia.
Qed.

Lemma progress_last total :
  (0 < total)%nat -> progress (total - 1) total = 90.
Proof.
  intros Ht. rewrite progress_quotient by lia.
  replace (40 * (Z.of_nat (total - 1) + 1)) with (40 * Z.of_nat total) by lia.
  rewrite Z.div_mul by lia. reflexivity.
Qed.

Lemma nondecreasing_app (l1 l2 : list Z) (bound : Z) :
  nondecreasing l1 -> nondecreasing l2 ->
  Forall (fun x => x <= bound) l1 -> Forall (fun y => bound <= y) l2 ->
  nondecreasing (l1 ++ l2).
Proof.
  intros H1 H2 Hlow Hhigh i j x y Hij Hi Hj.
  rewrite Forall_lookup in Hlow. rewrite Forall_lookup in Hhigh.
  apply lookup_app_Some in Hi. apply lookup_app_Some in Hj.
  destruct Hi as [Hi | [Hilen Hi]], Hj as [Hj | [Hjlen Hj]].
  - apply (H1 i j x y Hij Hi Hj).
  - specialize (Hlow _ _ Hi). specialize (Hhigh _ _ Hj). lia.
  - apply lookup_lt_Some in Hj. lia.
  - apply (H2 (i - length l1)%nat (j - length l1)%nat x y);
      [lia | exact Hi | exact Hj].
Qed.

Lemma nondecreasing_nil : nondecreasing [].
Proof. intros i j x y _ Hi. discriminate. Qed.

Lemma nondecreasing_cons (a : Z) (l : list Z) :
  Forall (fun y => a <= y) l -> nondecreasing l -> nondecreasing (a :: l).
Proof.
  intros Ha Hl i j x y Hij Hi Hj. rewrite Forall_lookup in Ha.
  destruct i as [|i], j as [|j]; simpl in Hi, Hj; try lia.
  - injection Hi as <-. injection Hj as <-. lia.
  - injection Hi as <-. apply (Ha j y Hj).
  - apply (Hl i j x y); [lia | exact Hi | exact Hj].
Qed.

Lemma segment_progress_lookup total k x :
  map (fun i => progress i total) (seq 0 total) !! k = Some x ->
  (k < total)%nat /\ x = progress k total.
Proof.
  intros H. change (map ?f ?l) with (f <$> l) in H.
  rewrite list_lookup_fmap in H.
  destruct (seq 0 total !! k) as [i|] eqn:Hseq; [|discriminate].
  apply lookup_seq in Hseq. destruct Hseq as [-> Hk].
  simpl in H. injection H as <-. auto.
Qed.

End ProgressFacts.

(** X18: after segment [i] of [total] the progress printed is
    [50 + 40 * (i + 1) // total]: it lies between 50 and 90, it never
    decreases from one segment to the next, and it is 90 after the last
    segment. *)
Theorem X18_progress_of_a_segment (i total : nat) :
  (i < total)%nat ->
  progress i total = 50 + 40 * (Z.of_nat i + 1) / Z.of_nat total /\
  50 <= progress i total <= 90 /\
  (forall i', (i <= i')%nat -> (i' < total)%nat ->
              progress i total <= progress i' total) /\
  progress (total - 1) total = 90.
Proof.
  intros Hi. split; [apply progress_quotient; exact Hi|].
  split; [apply progress_bounds; exact Hi|]. split.
  - intros i' Hii Hi'. apply progress_mono; assumption.
  - apply progress_last. lia.
Qed.

Lemma X18_progress_of_a_segment_witness :
  (1 < 3)%nat /\ progress 1 3 = 76 /\ progress 2 3 = 90.
Proof.
  split; [lia|].
  destruct (X18_progress_of_a_segment 1 3 ltac:(lia)) as (Hq & _ & _ & Hlast).
  split; [rewrite Hq; reflexivity | exact Hlast].
Defined.

(** X19: the progress values of a run that succeeds never decrease, lie
    between 10 and 100, begin with 10 and end with 100, whatever the
    number of segments, none included. *)
Theorem X19_progress_lines_nondecreasing (total : nat) :
  nondecreasing (progress_lines total) /\
  Forall (fun x => 10 <= x <= 100) (progress_lines total) /\
  head (progress_lines total) = Some 10 /\
  last (progress_lines total) = Some 100.
Proof.
  assert (Hmid : Forall (fun x => 50 <= x <= 90)
                   (map (fun i => progress i total) (seq 0 total))).
  { apply Forall_lookup. intros k x Hk.
    apply segment_progress_lookup in Hk. destruct Hk as [Hk ->].
    apply progress_bounds. exact Hk. }
  assert (Hmono : nondecreasing (map (fun i => progress i total) (seq 0 total))).
  { intros i j x y Hij Hi Hj.
    apply segment_progress_lookup in Hi. destruct Hi as [Hi ->].
    apply segment_progress_lookup in Hj. destruct Hj as [Hj ->].
    apply progress_mono; assumption. }
  unfold progress_lines. split; [|split; [|split]].
  - apply nondecreasing_app with 50.
    + repeat (apply nondecreasing_cons; [repeat constructor; lia|]).
      apply nondecreasing_nil.
    + apply nondecreasing_app with 90.
      * exact Hmono.
      * repeat (apply nondecreasing_cons; [repeat constructor; lia|]).
        apply nondecreasing_nil.
      * eapply Forall_impl; [exact Hmid|]. intros x Hx. simpl in Hx. lia.
      * repeat constructor; lia.
    + repeat constructor; lia.
    + apply Forall_app. split.
      * eapply Forall_impl; [exact Hmid|]. intros x Hx. simpl in Hx. lia.
      * repeat constructor; lia.
  - apply Forall_app. split; [repeat constructor; lia|].
    apply Forall_app. split; [|repeat constructor; lia].
    eapply Forall_impl; [exact Hmid|]. intros x Hx. simpl in Hx. lia.
  - reflexivity.
  - rewrite !app_assoc.
    change [90; 100] with ([90] ++ [100]). rewrite app_assoc.
    apply last_snoc.
Qed.

(** X20: splitting again changes nothing: for [max_len >= 1], every
    part that [split_text] returns is returned as the one part of itself
    when it is split with the same [max_len]. *)
Theorem X20_parts_split_no_further (fuel : nat) (text : str) (max_len : Z) :
  1 <= max_len -> (length text <= fuel)%nat ->
  exists parts,
    split_text fuel text max_len = Some parts /\
    Forall (fun part => forall fuel', split_text fuel' part max_len = Some [part])
           parts.
Proof.
  intros Hm Hfuel.
  destruct (split_text_total fuel text max_len Hm Hfuel) as [parts [Hparts _]].
  exists parts. split; [exact Hparts|].
  eapply Forall_impl; [apply (split_text_parts_len _ _ _ _ Hm Hparts)|].
  intros part Hlen fuel'. apply split_text_short. exact Hlen.
Qed.

Lemma X20_parts_split_no_further_witness :
  1 <= 10 /\ (length sentence <= 51)%nat /\
  exists parts,
    split_text 51 sentence 10 = Some parts /\
    Forall (fun part => forall fuel', split_text fuel' part 10 = Some [part])
           parts.
Proof.
  repeat (split; [by_evaluation|]).
  apply (X20_parts_split_no_further 51 sentence 10); by_evaluation.
Defined.
